(** * SNIproxy: a shallow embedding of [orgins/main.go]

    The development follows the source file top to bottom: Go's string
    primitives, the public-suffix helper, the domain matcher [needsProxy],
    the secure resolver [resolveRealIP], the DNS responder [forwardDns],
    the certificate mint [getCertificate], the policy store
    ([updateConfig], [pollingFileChange]) and the TLS engine [forwardTls],
    first for one connection on its own and then for the goroutines of
    several connections interleaved.

    Go [string]s are byte strings, modelled by [string] (a list of 8-bit
    characters).  Go [int]s are modelled by [Z]; every integer below is a
    length or an index of an in-memory string, far from the 64-bit bounds. *)

From Stdlib Require Import ZArith Ascii String List Lia Bool.
From stdpp Require Import base option gmap strings.

Local Open Scope Z_scope.

(** ** Control effects

    A Go call either returns, panics (a run-time error such as an index out
    of range), calls [log.Fatal] (which exits the process), or does not
    leave a loop.  [Spin] is what a loop model answers when its fuel runs
    out. *)

Inductive Run (A : Type) : Type :=
  | Done (a : A)
  | Panic
  | Fatal
  | Spin.

Arguments Done {A} a.
Arguments Panic {A}.
Arguments Fatal {A}.
Arguments Spin {A}.

Definition run_bind {A B : Type} (m : Run A) (k : A -> Run B) : Run B :=
  match m with
  | Done a => k a
  | Panic => Panic
  | Fatal => Fatal
  | Spin => Spin
  end.

Notation "'let*' x ':=' m 'in' k" := (run_bind m (fun x => k))
  (at level 10, x name, m at level 100, k at level 200).

(** A Go operation that panics when out of range. *)
Definition checked {A : Type} (o : option A) : Run A :=
  match o with
  | Some a => Done a
  | None => Panic
  end.

(** ** Go string primitives *)

Module GoString.

Definition len (s : string) : Z := Z.of_nat (String.length s).

Fixpoint drop (n : nat) (s : string) : string :=
  match n, s with
  | O, _ => s
  | S n', String _ s' => drop n' s'
  | S _, EmptyString => EmptyString
  end.

Fixpoint take (n : nat) (s : string) : string :=
  match n, s with
  | O, _ => EmptyString
  | S n', String a s' => String a (take n' s')
  | S _, EmptyString => EmptyString
  end.

(** [s[lo:]]: a run-time panic unless [0 <= lo <= len(s)]. *)
Definition slice_from (s : string) (lo : Z) : option string :=
  if (0 <=? lo) && (lo <=? len s) then Some (drop (Z.to_nat lo) s) else None.

(** [s[:hi]]: a run-time panic unless [0 <= hi <= len(s)]. *)
Definition slice_to (s : string) (hi : Z) : option string :=
  if (0 <=? hi) && (hi <=? len s) then Some (take (Z.to_nat hi) s) else None.

(** [s[i]]: a run-time panic unless [0 <= i < len(s)]. *)
Definition index (s : string) (i : Z) : option ascii :=
  if 0 <=? i then String.get (Z.to_nat i) s else None.

(** [strings.IndexByte(s, c)]: the first position of [c], or [-1]. *)
Fixpoint IndexByte (s : string) (c : ascii) : Z :=
  match s with
  | EmptyString => -1
  | String a s' =>
      if Ascii.eqb a c then 0
      else let r := IndexByte s' c in
           if r <? 0 then -1 else r + 1
  end.

(** [strings.LastIndexByte(s, c)] (also [strings.LastIndex] with a
    one-byte separator): the last position of [c], or [-1]. *)
Fixpoint LastIndexByte (s : string) (c : ascii) : Z :=
  match s with
  | EmptyString => -1
  | String a s' =>
      let r := LastIndexByte s' c in
      if 0 <=? r then r + 1
      else if Ascii.eqb a c then 0 else -1
  end.

(** [strings.HasPrefix], [strings.HasSuffix], [strings.Contains]. *)
Fixpoint HasPrefix (s p : string) : bool :=
  match p, s with
  | EmptyString, _ => true
  | String b p', String a s' => Ascii.eqb a b && HasPrefix s' p'
  | String _ _, EmptyString => false
  end.

Definition HasSuffix (s p : string) : bool :=
  (String.length p <=? String.length s)%nat
  && String.eqb (drop (String.length s - String.length p) s) p.

Fixpoint Contains (s p : string) : bool :=
  HasPrefix s p ||
  match s with
  | EmptyString => false
  | String _ s' => Contains s' p
  end.

End GoString.

Import GoString.

(** ** golang.org/x/net/publicsuffix

    [EffectiveTLDPlusOne] is the library function the program calls.  Its
    body only needs the length of the public suffix, which the library
    reads off its compiled table; the table lookup [PublicSuffix] is a
    parameter of the development. *)

Module publicsuffix.
Section WithTable.

Variable PublicSuffix : string -> string.

(** [(string, error)] is [Some s] for [(s, nil)] and [None] for an error. *)
Definition EffectiveTLDPlusOne (domain : string) : Run (option string) :=
  if HasPrefix domain "." || HasSuffix domain "." || Contains domain ".."
  then Done None
  else
    let suffix := PublicSuffix domain in
    if len domain <=? len suffix then Done None
    else
      let i := len domain - len suffix - 1 in
      let* c := checked (index domain i) in
      if negb (Ascii.eqb c ".") then Done None
      else
        let* head := checked (slice_to domain i) in
        let* r := checked (slice_from domain (1 + LastIndexByte head ".")) in
        Done (Some r).

End WithTable.

(** A small rule table ([co.uk], and the default rule [*], which also
    covers one-label suffixes such as [com]) standing in for the compiled
    list wherever a run is evaluated on a concrete name. *)
Definition sampleSuffix (domain : string) : string :=
  if String.eqb domain "co.uk" || HasSuffix domain ".co.uk" then "co.uk"
  else drop (Z.to_nat (1 + LastIndexByte domain ".")) domain.

End publicsuffix.

(** ** Constants of [main.go] ([time.Duration] counts nanoseconds) *)

Definition second : Z := 1000000000.
Definition minute : Z := 60 * second.
Definition hour : Z := 60 * minute.

Definition defDNS : string := "114.114.114.114:53".
Definition gfwDNS : string := "8.8.8.8:853".
Definition certExpire : Z := hour * 24 * 30.
Definition dialTimeout : Z := 5 * second.
Definition pollInterval : Z := second.
Definition cacheAddrTtl : Z := 5 * minute.

(** ** github.com/miekg/dns: the message types the program touches *)

Module dns.

Definition TypeA : Z := 1.
Definition TypeAAAA : Z := 28.
Definition ClassINET : Z := 1.
Definition OpcodeQuery : Z := 0.
Definition RcodeSuccess : Z := 0.

(** [net.IP] is a byte slice. *)
Definition IP : Type := list Z.

Record Question : Type := mkQuestion {
  Name : string;
  Qtype : Z;
  Qclass : Z
}.

Record RR_Header : Type := mkHeader {
  hName : string;
  Rrtype : Z;
  Class : Z;
  Ttl : Z
}.

(** Resource records: [*dns.A], [*dns.AAAA], and every other record type
    (CNAME, SOA, ...), of which only the header matters here. *)
Inductive RR : Type :=
  | A (Hdr : RR_Header) (a : IP)
  | AAAA (Hdr : RR_Header) (aaaa : IP)
  | OtherRR (Hdr : RR_Header).

Record MsgHdr : Type := mkMsgHdr {
  Id : Z;
  Response : bool;
  Opcode : Z;
  Authoritative : bool;
  Truncated : bool;
  RecursionDesired : bool;
  RecursionAvailable : bool;
  Zero : bool;
  AuthenticatedData : bool;
  CheckingDisabled : bool;
  Rcode : Z
}.

Record Msg : Type := mkMsg {
  Hdr : MsgHdr;
  Questions : list Question;
  Answer : list RR;
  Ns : list RR;
  Extra : list RR
}.

(** The zero value of [MsgHdr] and [new(dns.Msg)]. *)
Definition zeroHdr : MsgHdr :=
  mkMsgHdr 0 false 0 false false false false false false false 0.

Definition newMsg : Msg := mkMsg zeroHdr [] [] [] [].

(** The method [Msg.SetReply]. *)
Definition SetReply (msg request : Msg) : Msg :=
  let h := Hdr msg in
  let rq := Hdr request in
  let queryOp := Opcode rq =? OpcodeQuery in
  mkMsg
    (mkMsgHdr (Id rq) true (Opcode rq) (Authoritative h) (Truncated h)
       (if queryOp then RecursionDesired rq else RecursionDesired h)
       (RecursionAvailable h) (Zero h) (AuthenticatedData h)
       (if queryOp then CheckingDisabled rq else CheckingDisabled h)
       RcodeSuccess)
    (match Questions request with
     | [] => Questions msg
     | q :: _ => [q]
     end)
    (Answer msg) (Ns msg) (Extra msg).

Definition setAuthoritative (msg : Msg) (b : bool) : Msg :=
  let h := Hdr msg in
  mkMsg
    (mkMsgHdr (Id h) (Response h) (Opcode h) b (Truncated h)
       (RecursionDesired h) (RecursionAvailable h) (Zero h)
       (AuthenticatedData h) (CheckingDisabled h) (Rcode h))
    (Questions msg) (Answer msg) (Ns msg) (Extra msg).

Definition setAnswer (msg : Msg) (rrs : list RR) : Msg :=
  mkMsg (Hdr msg) (Questions msg) rrs (Ns msg) (Extra msg).

(** [q.Question[0].Qtype = t]: an index out of range panics. *)
Definition setQtype0 (msg : Msg) (t : Z) : option Msg :=
  match Questions msg with
  | [] => None
  | q :: qs =>
      Some (mkMsg (Hdr msg) (mkQuestion (Name q) t (Qclass q) :: qs)
              (Answer msg) (Ns msg) (Extra msg))
  end.

(** [dns.Client]: only the transport is set by the program. *)
Record Client : Type := mkClient { Net : string }.

(** What [Client.Exchange(m, server)] answers is up to the network:
    [Some r] for a reply, [None] for an error. *)
Definition Exchanger : Type := Client -> Msg -> string -> option Msg.

End dns.

(** ** net *)

Module net.

(** [net.IPv4(a, b, c, d)]: the 16-byte form of an IPv4 address. *)
Definition IPv4 (a b c d : Z) : dns.IP :=
  [0; 0; 0; 0; 0; 0; 0; 0; 0; 0; 255; 255; a; b; c; d].

Definition IPv6loopback : dns.IP :=
  [0; 0; 0; 0; 0; 0; 0; 0; 0; 0; 0; 0; 0; 0; 0; 1].

(** [net.JoinHostPort]: a host with a colon is bracketed. *)
Definition JoinHostPort (host port : string) : string :=
  if 0 <=? IndexByte host ":" then "[" +:+ host +:+ "]:" +:+ port
  else host +:+ ":" +:+ port.

End net.

(** ** Observable actions

    What a run of the program does to the outside world, in order. *)

Inductive Level : Type := DebugLevel | InfoLevel | WarnLevel | ErrorLevel.

Inductive Side : Type := Inbound | Outbound.

(** ** crypto/x509 and crypto/tls: the certificate data the mint fills in *)

Module x509.

Definition ExtKeyUsageServerAuth : Z := 1.

(** The fields of [x509.Certificate] that [getCertificate] sets. *)
Record Certificate : Type := mkCertificate {
  SerialNumber : Z;
  CommonName : string;
  Country : list string;
  NotBefore : Z;
  NotAfter : Z;
  ExtKeyUsage : list Z;
  BasicConstraintsValid : bool;
  DNSNames : list string
}.

End x509.

Module tls.

(** [tls.Certificate]: the chain holds the one certificate that
    [x509.CreateCertificate] signed with the CA key, which says what the
    template says. *)
Record Certificate : Type := mkCertificate {
  Leaf : x509.Certificate;
  PrivateKey : Z
}.

End tls.

Inductive Event : Type :=
  | Log (lvl : Level) (text : string)
  | LogErr (lvl : Level)
  | Exchange (cli : dns.Client) (q : dns.Msg) (server : string)
  | SendCertificate (cert : tls.Certificate)
  | Lock (host : string)
  | Unlock (host : string)
  | Dial (address : string)
  | Splice
  | Close (side : Side).

(** ** The program *)

Record Resolv : Type := mkResolv {
  addr : string;
  expire : Z
}.

(** [r.Expired()], with the reading of [time.Now()]. *)
Definition Expired (r : Resolv) (now : Z) : bool := expire r <? now.

(** The randomness, the clock and the signing step one mint consumes:
    [ecdsa.GenerateKey] ([None] for an error), [rand.Int], the two readings
    of [time.Now()] and whether [x509.CreateCertificate] succeeds. *)
Record MintEnv : Type := mkMintEnv {
  GenerateKey : option Z;
  randInt : option Z;
  notBeforeNow : Z;
  notAfterNow : Z;
  CreateCertificate : bool
}.

(** The configuration file as one moment shows it: what [os.Stat] and
    [os.Open] answer ([None] for an error), the tokens a [bufio.Scanner]
    yields from the opened file and whether closing it succeeds. *)
Record FileInfo : Type := mkFileInfo {
  Size : Z;
  ModTime : Z
}.

Record File : Type := mkFile {
  ScanText : list string;
  CloseOk : bool
}.

Record FileSystem : Type := mkFileSystem {
  Stat : option FileInfo;
  Open : option File
}.

(** The package-level variables. *)
Record Globals : Type := mkGlobals {
  proxyAddr : gset string;
  resolvLock : gset string;
  cacheCert : gmap string tls.Certificate;
  cacheResolv : gmap string Resolv
}.

(** What the peer and the network do on one inbound connection: the
    server name of the ClientHello ([None] when no well-formed hello
    arrives), the mint's environment, whether the client finishes the
    handshake once it has the certificate, the clock readings, the secure
    resolver's answers and the outcome of each outbound dial (by attempt
    number and address; the peer-certificate check with
    [DNSName = host] is part of the dial). *)
Record Peer : Type := mkPeer {
  ServerName : option string;
  mintEnv : MintEnv;
  clientFinishes : bool;
  expiredNow : Z;
  exchange : dns.Exchanger;
  resolveNow : nat -> Z;
  dialOk : nat -> string -> bool
}.

(** What the DNS handler does with a request: it writes a message to the
    client ([w.WriteMsg]), or the upstream exchange fails and nothing is
    written. *)
Inductive Handled : Type :=
  | WriteMsg (msg : dns.Msg) (trace : list Event)
  | NoResponse (trace : list Event).

(** The state of the file watcher: the active set and [initStat]. *)
Record Watch : Type := mkWatch {
  active : gset string;
  initStat : FileInfo
}.

Definition gfwDnsCli : dns.Client := dns.mkClient "tcp-tls".
Definition defDnsCli : dns.Client := dns.mkClient "udp".

Section Program.

(** Library functions whose tables or Unicode data are outside the
    program: the public-suffix lookup, [dns.Fqdn], [net.IP.String] and
    [strings.TrimSpace]. *)
Variable PublicSuffix : string -> string.
Variable Fqdn : string -> string.
Variable IPString : dns.IP -> string.
Variable TrimSpace : string -> string.

Abbreviation EffectiveTLDPlusOne :=
  (publicsuffix.EffectiveTLDPlusOne PublicSuffix).

(** *** needsProxy *)

(** The [for domain != secondary] loop. *)
Fixpoint needsProxy_loop (proxyAddr : gset string) (fuel : nat)
    (domain secondary : string) : Run bool :=
  match fuel with
  | O => Spin
  | S fuel' =>
      if String.eqb domain secondary then Done false
      else
        let dot := IndexByte domain "." in
        let* domain := checked (slice_from domain (dot + 1)) in
        if bool_decide (domain ∈ proxyAddr) then Done true
        else needsProxy_loop proxyAddr fuel' domain secondary
  end.

(** A turn of the loop that goes on shortens [domain] or leaves it as it
    is, so a run that leaves the loop does so within
    [S (length domain)] turns: more fuel never changes an answer
    ([needsProxy_loop_fuel]), and a run still in the loop after that many
    turns never leaves it ([needsProxy_loop_spin]). *)
Definition needsProxy (proxyAddr : gset string) (domain : string) : Run bool :=
  if bool_decide (domain ∈ proxyAddr) then Done true
  else
    let* r := EffectiveTLDPlusOne domain in
    match r with
    | None => Done false
    | Some secondary =>
        needsProxy_loop proxyAddr (S (String.length domain)) domain secondary
    end.

(** *** resolveRealIP *)

Definition target (ip : dns.IP) (now : Z) : Resolv :=
  mkResolv (net.JoinHostPort (IPString ip) "443") (now + cacheAddrTtl).

(** The two [range r.Answer] loops.  Each append reads the clock once:
    [clock k] is the reading taken for the [k]-th target. *)
Fixpoint appendAAAA (clock : nat -> Z) (ret : list Resolv)
    (answers : list dns.RR) : list Resolv :=
  match answers with
  | [] => ret
  | dns.AAAA _ ip :: rest =>
      appendAAAA clock (ret ++ [target ip (clock (length ret))]) rest
  | _ :: rest => appendAAAA clock ret rest
  end.

Fixpoint appendA (clock : nat -> Z) (ret : list Resolv)
    (answers : list dns.RR) : list Resolv :=
  match answers with
  | [] => ret
  | dns.A _ ip :: rest =>
      appendA clock (ret ++ [target ip (clock (length ret))]) rest
  | _ :: rest => appendA clock ret rest
  end.

Definition resolveRealIP (exchange : dns.Exchanger) (clock : nat -> Z)
    (host : string) : Run (list Resolv * list Event) :=
  let cli := gfwDnsCli in
  let q :=
    dns.mkMsg
      (dns.mkMsgHdr 0 false 0 false false true false false false false 0)
      [dns.mkQuestion (Fqdn host) dns.TypeAAAA dns.ClassINET] [] [] [] in
  match exchange cli q gfwDNS with
  | None => Done ([], [Exchange cli q gfwDNS; LogErr WarnLevel])
  | Some r =>
      let ret := appendAAAA clock [] (dns.Answer r) in
      let* q' := checked (dns.setQtype0 q dns.TypeA) in
      match exchange cli q' gfwDNS with
      | None =>
          Done (ret, [Exchange cli q gfwDNS; Exchange cli q' gfwDNS;
                      LogErr WarnLevel])
      | Some r' =>
          Done (appendA clock ret (dns.Answer r'),
                [Exchange cli q gfwDNS; Exchange cli q' gfwDNS])
      end
  end.

(** *** forwardDns *)

Definition forwardDns (proxyAddr : gset string) (exchange : dns.Exchanger)
    (m : dns.Msg) : Run Handled :=
  let* _ :=
    if 1 <? Z.of_nat (length (dns.Questions m)) then Fatal else Done tt in
  let forward :=
    let cli := defDnsCli in
    match exchange cli m defDNS with
    | None => NoResponse [Exchange cli m defDNS; LogErr WarnLevel]
    | Some r => WriteMsg r [Exchange cli m defDNS]
    end in
  let* q0 := checked (dns.Questions m !! 0%nat) in
  if (dns.Qtype q0 =? dns.TypeA) || (dns.Qtype q0 =? dns.TypeAAAA) then
    let domain := dns.Name q0 in
    let* name := checked (slice_to domain (len domain - 1)) in
    let* proxied := needsProxy proxyAddr name in
    if proxied then
      let msg := dns.SetReply dns.newMsg m in
      let msg := dns.setAuthoritative msg true in
      let hdr := dns.mkHeader domain (dns.Qtype q0) dns.ClassINET 60 in
      let msg :=
        if dns.Qtype q0 =? dns.TypeA
        then dns.setAnswer msg [dns.A hdr (net.IPv4 127 0 0 1)]
        else if dns.Qtype q0 =? dns.TypeAAAA
        then dns.setAnswer msg [dns.AAAA hdr net.IPv6loopback]
        else msg in
      Done (WriteMsg msg [])
    else Done forward
  else Done forward.

(** *** getCertificate *)

(** The [if info.ServerName == secondary] block: the name [cn]. *)
Definition certName (ServerName secondary : string) : Run string :=
  if String.eqb ServerName secondary then Done secondary
  else
    let dot := IndexByte ServerName "." in
    checked (slice_from ServerName (dot + 1)).

(** From [ecdsa.GenerateKey] to the [tls.Certificate] literal: the new
    leaf, or [None] when one of the three fallible steps fails. *)
Definition mintLeaf (env : MintEnv) (cn : string) : option tls.Certificate :=
  match GenerateKey env with
  | None => None
  | Some priv =>
      match randInt env with
      | None => None
      | Some serialNumber =>
          let template :=
            x509.mkCertificate serialNumber cn ["CN"]
              (notBeforeNow env)
              (notAfterNow env + certExpire)
              [x509.ExtKeyUsageServerAuth] true
              ["*." +:+ cn; cn] in
          if CreateCertificate env
          then Some (tls.mkCertificate template priv)
          else None
      end
  end.

(** The result is [(cert, nil)] as [Some cert] and [(nil, err)] as
    [None], with the certificate cache after the call. *)
Definition getCertificate (env : MintEnv)
    (cacheCert : gmap string tls.Certificate) (ServerName : string)
    : Run (option tls.Certificate * gmap string tls.Certificate) :=
  if String.eqb ServerName "" then Done (None, cacheCert)
  else
    match cacheCert !! ServerName with
    | Some cert => Done (Some cert, cacheCert)
    | None =>
        let* r := EffectiveTLDPlusOne ServerName in
        match r with
        | None => Done (None, cacheCert)
        | Some secondary =>
            let* cn := certName ServerName secondary in
            match cacheCert !! cn with
            | Some cert => Done (Some cert, cacheCert)
            | None =>
                match mintLeaf env cn with
                | None => Done (None, cacheCert)
                | Some cert => Done (Some cert, <[cn := cert]> cacheCert)
                end
            end
        end
    end.

(** *** updateConfig and pollingFileChange *)

(** The [for scanner.Scan()] loop. *)
Fixpoint scanInto (newMap : gset string) (texts : list string) : gset string :=
  match texts with
  | [] => newMap
  | line :: rest =>
      let text := TrimSpace line in
      if String.eqb text "" then scanInto newMap rest
      else scanInto ({[text]} ∪ newMap) rest
  end.

(** The new value of [proxyAddr]; the deferred [fil.Close()] runs after
    the assignment. *)
Definition updateConfig (fs : FileSystem) : Run (gset string) :=
  match Open fs with
  | None => Fatal
  | Some fil =>
      let newMap := scanInto ∅ (ScanText fil) in
      if CloseOk fil then Done newMap else Fatal
  end.

(** The part of [pollingFileChange] that runs before the goroutine. *)
Definition pollingFileChange (fs : FileSystem) : Run Watch :=
  match Stat fs with
  | None => Fatal
  | Some initStat =>
      let* newMap := updateConfig fs in
      Done (mkWatch newMap initStat)
  end.

(** One turn of the goroutine's loop, after [time.Sleep(pollInterval)]. *)
Definition pollOnce (fs : FileSystem) (w : Watch) : Run Watch :=
  match Stat fs with
  | None => Fatal
  | Some stat =>
      if negb (Size stat =? Size (initStat w))
         || negb (ModTime stat =? ModTime (initStat w))
      then
        let* newMap := updateConfig fs in
        Done (mkWatch newMap stat)
      else Done w
  end.

(** The goroutine over the successive states of the file. *)
Fixpoint pollLoop (ticks : list FileSystem) (w : Watch) : Run Watch :=
  match ticks with
  | [] => Done w
  | fs :: rest => let* w' := pollOnce fs w in pollLoop rest w'
  end.

(** *** forwardTls *)

(** The [for _, addr := range addrs] loop: the addresses are dialed in
    order until one connects; [n] counts the dials made so far. *)
Fixpoint dialEach (dialOk : nat -> string -> bool) (n : nat)
    (addrs : list Resolv) : option Resolv * list Event :=
  match addrs with
  | [] => (None, [])
  | a :: rest =>
      if dialOk n (addr a) then (Some a, [Dial (addr a)])
      else
        let (r, t) := dialEach dialOk (S n) rest in
        (r, Dial (addr a) :: t)
  end.

(** The critical section between [lock.Lock()] and [lock.Unlock()]:
    whether an outbound connection stands at the end, the resolve cache
    and what was done. *)
Definition resolveAndDial (p : Peer) (cacheResolv : gmap string Resolv)
    (host : string) : Run (bool * gmap string Resolv * list Event) :=
  let '(connected, n, t) :=
    match cacheResolv !! host with
    | Some r =>
        if negb (Expired r (expiredNow p))
        then (dialOk p 0%nat (addr r), 1%nat, [Dial (addr r)])
        else (false, 0%nat, [])
    | None => (false, 0%nat, [])
    end in
  if connected then Done (true, cacheResolv, t)
  else
    let* res := resolveRealIP (exchange p) (resolveNow p) host in
    let (addrs, t') := res in
    match addrs with
    | [] =>
        Done (false, cacheResolv,
              t ++ t' ++ [Log WarnLevel (host +:+ " resolve error")])
    | _ :: _ =>
        match dialEach (dialOk p) n addrs with
        | (Some a, t'') =>
            Done (true, <[host := a]> cacheResolv, t ++ t' ++ t'')
        | (None, t'') =>
            Done (false, cacheResolv,
                  t ++ t' ++ t'' ++ [Log InfoLevel (host +:+ " is IP-blocked")])
        end
    end.

(** [forwardTls] after the handshake, from
    [host := conn.ConnectionState().ServerName] to the end. *)
Definition proxyHost (p : Peer) (g : Globals) (host : string)
    : Run (Globals * list Event) :=
  let* proxied := needsProxy (proxyAddr g) host in
  if negb proxied
  then Done (g, [Log ErrorLevel (host +:+ " needs no proxy"); Close Inbound])
  else
    let g := mkGlobals (proxyAddr g) ({[host]} ∪ resolvLock g)
               (cacheCert g) (cacheResolv g) in
    let* section := resolveAndDial p (cacheResolv g) host in
    let '(connected, resolved, t) := section in
    let g := mkGlobals (proxyAddr g) (resolvLock g) (cacheCert g) resolved in
    let before := [Log DebugLevel host; Lock host] ++ t ++ [Unlock host] in
    if connected
    then Done (g, before ++ [Splice; Close Outbound; Close Inbound])
    else Done (g, before ++ [Close Inbound]).

(** One inbound connection, run on its own.  [conn.Handshake()] is the
    server side of crypto/tls with [GetCertificate: getCertificate] (the
    listener of [main]): the certificate the callback returns is sent to
    the client, and the handshake succeeds if the client finishes it. *)
Definition forwardTls (p : Peer) (g : Globals) : Run (Globals * list Event) :=
  match ServerName p with
  | None => Done (g, [LogErr DebugLevel; Close Inbound])
  | Some sni =>
      let* minted := getCertificate (mintEnv p) (cacheCert g) sni in
      let (cert, certs) := minted in
      let g := mkGlobals (proxyAddr g) (resolvLock g) certs (cacheResolv g) in
      match cert with
      | None => Done (g, [LogErr DebugLevel; Close Inbound])
      | Some cert =>
          if negb (clientFinishes p)
          then Done (g, [SendCertificate cert; LogErr DebugLevel; Close Inbound])
          else
            let* served := proxyHost p g sni in
            let (g, t) := served in
            Done (g, SendCertificate cert :: t)
      end
  end.

End Program.

(** ** Vocabulary of the statements *)

(** [labels p]: [p] is a run of whole labels, each closed by its dot; that
    is, [p] is empty or ends in a dot. *)
Fixpoint labels (p : string) : bool :=
  match p with
  | EmptyString => true
  | String c r =>
      match r with
      | EmptyString => Ascii.eqb c "."
      | String _ _ => labels r
      end
  end.

(** [strips_to h s]: [s] is [h] with zero or more leading labels removed. *)
Definition strips_to (h s : string) : Prop :=
  exists p, h = p +:+ s /\ labels p = true.

(** The forms of the matcher's walk: from [h] down to [base], both
    included. *)
Definition walk_form (h base s : string) : Prop :=
  strips_to h s /\ strips_to s base.

(** [cert_name sni base cn]: the name [getCertificate] mints for [sni]
    when the library returned [base]: [base] itself when [sni] is the
    base, and else what follows the first dot of [sni]. *)
Definition cert_name (sni base cn : string) : Prop :=
  (sni = base /\ cn = base)
  \/ (sni <> base
      /\ exists a, sni = a +:+ String "." cn /\ IndexByte a "." = -1).

(** The IPv6 and the IPv4 addresses of an answer section, in its order. *)
Definition aaaa_of (answers : list dns.RR) : list dns.IP :=
  omap (fun rr => match rr with dns.AAAA _ ip => Some ip | _ => None end)
    answers.

Definition a_of (answers : list dns.RR) : list dns.IP :=
  omap (fun rr => match rr with dns.A _ ip => Some ip | _ => None end)
    answers.

(** The dial targets of a list of addresses, the first of them stamped
    with the [k]-th reading of the clock. *)
Fixpoint targets (IPString : dns.IP -> string) (clock : nat -> Z) (k : nat)
    (ips : list dns.IP) : list Resolv :=
  match ips with
  | [] => []
  | ip :: rest =>
      target IPString ip (clock k) :: targets IPString clock (S k) rest
  end.

(** The two questions [resolveRealIP] asks about [host]. *)
Definition query (Fqdn : string -> string) (host : string) (qtype : Z)
    : dns.Msg :=
  dns.mkMsg
    (dns.mkMsgHdr 0 false 0 false false true false false false false 0)
    [dns.mkQuestion (Fqdn host) qtype dns.ClassINET] [] [] [].

(** Lowercasing, as the specification means it: [A]-[Z] to [a]-[z], every
    other byte kept.  The program never calls it. *)
Definition lowerByte (c : ascii) : ascii :=
  let n := nat_of_ascii c in
  if (65 <=? n)%nat && (n <=? 90)%nat then ascii_of_nat (n + 32) else c.

Fixpoint ToLower (s : string) : string :=
  match s with
  | EmptyString => EmptyString
  | String c s' => String (lowerByte c) (ToLower s')
  end.


(** ** Connections running concurrently

    [main] starts one goroutine per accepted connection.  The goroutines
    share [cacheCert], [cacheResolv] and [resolvLock] ([sync.Map]s, whose
    operations are atomic) and the mutexes stored in [resolvLock].  A run
    is an interleaving of atomic steps: each step is one operation on the
    shared variables (or one call to the outside) with the local work that
    leads to it.  [Pc] says which operation a goroutine is about to do. *)

Inductive Pc : Type :=
  | AtHandshake
      (* in [conn.Handshake()]: before [cacheCert.Load(info.ServerName)] *)
  | AtLoadCn (cn : string)
      (* before [cacheCert.Load(cn)] *)
  | AtStore (cn : string) (cert : tls.Certificate)
      (* the leaf is made: before [cacheCert.Store(cn, cert)] *)
  | AtPolicy
      (* handshake done: before [needsProxy] and [resolvLock.LoadOrStore] *)
  | AtLock
      (* before [lock.Lock()] *)
  | AtCacheCheck
      (* lock held: before [cacheResolv.Load(host)] and the cached dial *)
  | AtResolve
      (* lock held: before [resolveRealIP(host)] *)
  | AtDial (addrs : list Resolv)
      (* lock held: in the [range addrs] loop, these addresses left *)
  | AtUnlock (connected : bool)
      (* lock held: before [lock.Unlock()] *)
  | AtSplice
  | Closed.

(** Between [lock.Lock()] and [lock.Unlock()]. *)
Definition inSection (pc : Pc) : bool :=
  match pc with
  | AtCacheCheck | AtResolve | AtDial _ | AtUnlock _ => true
  | _ => false
  end.

Record Conn : Type := mkConn {
  connHost : string;
  connPc : Pc
}.

(** The shared variables, the mutexes that are locked (a host stands for
    the one mutex [resolvLock] holds for it), the goroutines, and two
    records of what has been done so far: the names a leaf was made for
    and the hosts [resolveRealIP] was called for, latest first. *)
Record System : Type := mkSystem {
  shared : Globals;
  held : gset string;
  conns : list Conn;
  minted : list string;
  resolved : list string
}.

(** A step of the run: a connection is accepted, or goroutine [i] does its
    next operation, with what the peer and the network do then. *)
Inductive Action : Type :=
  | Accept (sni : string)
  | Go (i : nat) (o : Peer).

Definition cold (policy : gset string) : System :=
  mkSystem (mkGlobals policy ∅ ∅ ∅) ∅ [] [] [].

Section Interleaving.

Variable PublicSuffix : string -> string.
Variable Fqdn : string -> string.
Variable IPString : dns.IP -> string.

Definition goto (s : System) (i : nat) (c : Conn) (pc : Pc) : System :=
  mkSystem (shared s) (held s) (<[i := mkConn (connHost c) pc]> (conns s))
    (minted s) (resolved s).

Definition afterHandshake (o : Peer) : Pc :=
  if clientFinishes o then AtPolicy else Closed.

Definition step (s : System) (i : nat) (o : Peer) : option System :=
  match conns s !! i with
  | None => None
  | Some c =>
      let g := shared s in
      let host := connHost c in
      match connPc c with
      | AtHandshake =>
          if String.eqb host "" then Some (goto s i c Closed)
          else
            match cacheCert g !! host with
            | Some _ => Some (goto s i c (afterHandshake o))
            | None =>
                match publicsuffix.EffectiveTLDPlusOne PublicSuffix host with
                | Done (Some secondary) =>
                    match certName host secondary with
                    | Done cn => Some (goto s i c (AtLoadCn cn))
                    | _ => None
                    end
                | Done None => Some (goto s i c Closed)
                | _ => None
                end
            end
      | AtLoadCn cn =>
          match cacheCert g !! cn with
          | Some _ => Some (goto s i c (afterHandshake o))
          | None =>
              match mintLeaf (mintEnv o) cn with
              | None => Some (goto s i c Closed)
              | Some cert =>
                  Some (mkSystem g (held s)
                          (<[i := mkConn host (AtStore cn cert)]> (conns s))
                          (cn :: minted s) (resolved s))
              end
          end
      | AtStore cn cert =>
          Some (mkSystem
                  (mkGlobals (proxyAddr g) (resolvLock g)
                     (<[cn := cert]> (cacheCert g)) (cacheResolv g))
                  (held s)
                  (<[i := mkConn host (afterHandshake o)]> (conns s))
                  (minted s) (resolved s))
      | AtPolicy =>
          match needsProxy PublicSuffix (proxyAddr g) host with
          | Done true =>
              Some (mkSystem
                      (mkGlobals (proxyAddr g) ({[host]} ∪ resolvLock g)
                         (cacheCert g) (cacheResolv g))
                      (held s) (<[i := mkConn host AtLock]> (conns s))
                      (minted s) (resolved s))
          | Done false => Some (goto s i c Closed)
          | _ => None
          end
      | AtLock =>
          if bool_decide (host ∈ held s) then None
          else
            Some (mkSystem g ({[host]} ∪ held s)
                    (<[i := mkConn host AtCacheCheck]> (conns s))
                    (minted s) (resolved s))
      | AtCacheCheck =>
          match cacheResolv g !! host with
          | Some r =>
              if negb (Expired r (expiredNow o)) && dialOk o 0%nat (addr r)
              then Some (goto s i c (AtUnlock true))
              else Some (goto s i c AtResolve)
          | None => Some (goto s i c AtResolve)
          end
      | AtResolve =>
          match resolveRealIP Fqdn IPString (exchange o) (resolveNow o) host with
          | Done (addrs, _) =>
              Some (mkSystem g (held s)
                      (<[i := mkConn host
                                (match addrs with
                                 | [] => AtUnlock false
                                 | _ :: _ => AtDial addrs
                                 end)]> (conns s))
                      (minted s) (host :: resolved s))
          | _ => None
          end
      | AtDial addrs =>
          match addrs with
          | [] => Some (goto s i c (AtUnlock false))
          | a :: rest =>
              if dialOk o 0%nat (addr a)
              then
                Some (mkSystem
                        (mkGlobals (proxyAddr g) (resolvLock g) (cacheCert g)
                           (<[host := a]> (cacheResolv g)))
                        (held s)
                        (<[i := mkConn host (AtUnlock true)]> (conns s))
                        (minted s) (resolved s))
              else Some (goto s i c (AtDial rest))
          end
      | AtUnlock connected =>
          Some (mkSystem g (held s ∖ {[host]})
                  (<[i := mkConn host
                            (if connected then AtSplice else Closed)]>
                     (conns s))
                  (minted s) (resolved s))
      | AtSplice => Some (goto s i c Closed)
      | Closed => None
      end
  end.

Definition perform (s : System) (a : Action) : option System :=
  match a with
  | Accept sni =>
      Some (mkSystem (shared s) (held s)
              (conns s ++ [mkConn sni AtHandshake]) (minted s) (resolved s))
  | Go i o => step s i o
  end.

Fixpoint exec (acts : list Action) (s : System) : option System :=
  match acts with
  | [] => Some s
  | a :: rest =>
      match perform s a with
      | Some s' => exec rest s'
      | None => None
      end
  end.

(** A step on which the network is kind: a cache entry that is found is
    fresh and dials, the resolver returns an address, and the address
    tried dials. *)
Definition kind (s : System) (a : Action) : bool :=
  match a with
  | Accept _ => true
  | Go i o =>
      match conns s !! i with
      | None => true
      | Some c =>
          match connPc c with
          | AtCacheCheck =>
              match cacheResolv (shared s) !! connHost c with
              | Some r =>
                  negb (Expired r (expiredNow o)) && dialOk o 0%nat (addr r)
              | None => true
              end
          | AtResolve =>
              match resolveRealIP Fqdn IPString (exchange o) (resolveNow o)
                      (connHost c) with
              | Done ([], _) => false
              | _ => true
              end
          | AtDial (a :: _) => dialOk o 0%nat (addr a)
          | _ => true
          end
      end
  end.

Fixpoint kindly (acts : list Action) (s : System) : bool :=
  match acts with
  | [] => true
  | a :: rest =>
      kind s a &&
      match perform s a with
      | Some s' => kindly rest s'
      | None => true
      end
  end.

End Interleaving.

(** How often [resolveRealIP] has been called for [host]. *)
Definition resolutions (s : System) (host : string) : nat :=
  length (filter (fun h => h = host) (resolved s)).

(** [exclusive s]: a goroutine between [Lock] and [Unlock] holds the mutex
    of its host, and no two goroutines of one host are there together. *)
Definition exclusive (s : System) : Prop :=
  (forall i c, conns s !! i = Some c -> inSection (connPc c) = true ->
               connHost c ∈ held s)
  /\ (forall i j ci cj,
        conns s !! i = Some ci -> conns s !! j = Some cj ->
        inSection (connPc ci) = true -> inSection (connPc cj) = true ->
        connHost ci = connHost cj -> i = j).

(** A goroutine that has an outbound connection. *)
Definition connected (pc : Pc) : bool :=
  match pc with
  | AtUnlock true | AtSplice => true
  | _ => false
  end.

(** A goroutine that is past the second lookup of [getCertificate]. *)
Definition pastLookup (pc : Pc) : nat :=
  match pc with
  | AtHandshake | AtLoadCn _ => 0
  | _ => 1
  end.

(** The number of goroutines past the second lookup. *)
Definition made (s : System) : nat :=
  sum_list_with (fun c => pastLookup (connPc c)) (conns s).

(** Where a goroutine stands with respect to the resolution of its host:
    1 about to resolve, 2 dialing a resolved address, 3 connected, 4 left
    without an address or a connection, 0 elsewhere. *)
Definition stage (pc : Pc) : nat :=
  match pc with
  | AtResolve => 1
  | AtDial (_ :: _) => 2
  | AtUnlock true | AtSplice => 3
  | AtDial [] | AtUnlock false => 4
  | _ => 0
  end.

Definition staged (s : System) (host : string) (k : nat) : Prop :=
  exists i c, conns s !! i = Some c /\ connHost c = host
              /\ stage (connPc c) = k.

(** The goroutines other than [i] that stand at stage [k] for [host]. *)
Definition others (s : System) (i : nat) (host : string) (k : nat) : Prop :=
  exists j c, j <> i /\ conns s !! j = Some c /\ connHost c = host
              /\ stage (connPc c) = k.

(** The state of the resolution of [host] in a run on which the network
    is kind: resolved once and cached, or being dialed after the one
    resolution, or not resolved yet. *)
Definition resolved_once (s : System) (host : string) : Prop :=
  ~ staged s host 4
  /\ match cacheResolv (shared s) !! host with
     | Some _ =>
         resolutions s host = 1%nat /\ ~ staged s host 1 /\ ~ staged s host 2
     | None =>
         ~ staged s host 3
         /\ ((resolutions s host = 0%nat /\ ~ staged s host 2)
             \/ (resolutions s host = 1%nat /\ staged s host 2))
     end.

(** [reaches p s Q]: goroutine 0, scheduled again and again with the peer
    [p], takes the system from [s] to a state that satisfies [Q]. *)
Definition reaches (PublicSuffix Fqdn : string -> string)
    (IPString : dns.IP -> string) (p : Peer) (s : System)
    (Q : System -> Prop) : Prop :=
  exists n s',
    exec PublicSuffix Fqdn IPString (replicate n (Go 0 p)) s = Some s'
    /\ Q s'.

(** The states of a system with one goroutine. *)
Definition alone (g : Globals) (locks : gset string) (sni : string) (pc : Pc)
    (s : System) : Prop :=
  shared s = g /\ held s = locks /\ conns s = [mkConn sni pc].

(** ** Stand-ins for the library parameters

    Used where a run is evaluated on concrete data. *)

Module sample.

(** [dns.Fqdn] on names without escapes. *)
Definition Fqdn (s : string) : string :=
  if HasSuffix s "." then s else s +:+ ".".

(** [net.IP.String] on the two addresses of the examples, [1.2.3.4] and
    [::1234]. *)
Definition IPString (ip : dns.IP) : string :=
  if decide (ip = net.IPv4 1 2 3 4) then "1.2.3.4" else "::1234".

Definition isSpace (c : ascii) : bool :=
  let n := nat_of_ascii c in
  ((9 <=? n)%nat && (n <=? 13)%nat) || (n =? 32)%nat.

Fixpoint trimLeft (s : string) : string :=
  match s with
  | EmptyString => EmptyString
  | String c s' => if isSpace c then trimLeft s' else s
  end.

Fixpoint trimRight (s : string) : string :=
  match s with
  | EmptyString => EmptyString
  | String c s' =>
      match trimRight s' with
      | EmptyString => if isSpace c then EmptyString else String c EmptyString
      | t => String c t
      end
  end.

(** [strings.TrimSpace] on ASCII text. *)
Definition TrimSpace (s : string) : string := trimRight (trimLeft s).

(** A resolver that knows one IPv6 address and fails on the A query. *)
Definition exchangeV6Only : dns.Exchanger :=
  fun _ q _ =>
    match dns.Questions q with
    | question :: _ =>
        if dns.Qtype question =? dns.TypeAAAA
        then Some (dns.setAnswer (dns.SetReply dns.newMsg q)
                     [dns.AAAA (dns.mkHeader (dns.Name question) dns.TypeAAAA
                                  dns.ClassINET 300)
                        [0; 0; 0; 0; 0; 0; 0; 0; 0; 0; 0; 0; 0; 0; 18; 52]])
        else None
    | [] => None
    end.

Definition mint : MintEnv := mkMintEnv (Some 7) (Some 42) 1000 1000 true.

Definition peer (sni : string) : Peer :=
  mkPeer (Some sni) mint true 2000 exchangeV6Only (fun _ => 2000)
    (fun _ _ => true).

Definition globals (policy : gset string) : Globals :=
  mkGlobals policy ∅ ∅ ∅.

(** Two connections to one host whose handshakes are interleaved; the
    first then resolves, dials and unlocks before the second takes the
    lock. *)
Definition race : list Action :=
  let o := peer "" in
  [Accept "www.example.com"; Accept "www.example.com";
   Go 0 o; Go 1 o; Go 0 o; Go 1 o; Go 0 o; Go 1 o; Go 0 o; Go 1 o;
   Go 0 o; Go 0 o; Go 0 o; Go 0 o; Go 0 o;
   Go 1 o; Go 1 o; Go 1 o].

End sample.

(** ** Further vocabulary

    Used by the statements about the code beyond the claims. *)

(** What the DNS handler does with a request it does not answer itself:
    the exchange with the cleartext upstream and the relay of its reply. *)
Definition forwarded (exchange : dns.Exchanger) (m : dns.Msg) : Handled :=
  match exchange defDnsCli m defDNS with
  | Some r => WriteMsg r [Exchange defDnsCli m defDNS]
  | None => NoResponse [Exchange defDnsCli m defDNS; LogErr WarnLevel]
  end.

(** [well_keyed cache]: every leaf of the cache is filed under its own
    common name and names that name and its wildcard. *)
Definition well_keyed (cache : gmap string tls.Certificate) : Prop :=
  forall k c, cache !! k = Some c ->
    x509.CommonName (tls.Leaf c) = k
    /\ x509.DNSNames (tls.Leaf c) = ["*." +:+ k; k].

(** [covers c name]: the names of the leaf [c] match [name]: [name] is the
    leaf's name itself, or one non-empty label, free of dots, in front of
    it (what the wildcard stands for). *)
Definition covers (c : tls.Certificate) (name : string) : Prop :=
  exists cn,
    x509.DNSNames (tls.Leaf c) = ["*." +:+ cn; cn]
    /\ (name = cn
        \/ exists a, a <> "" /\ IndexByte a "." = -1
                     /\ name = a +:+ String "." cn).


(** The events of the critical section other than the lock's own. *)
Definition under_lock (e : Event) : bool :=
  match e with
  | Exchange _ _ _ | Dial _ | Log _ _ | LogErr _ => true
  | _ => false
  end.


(** [owned s]: every locked mutex has a goroutine of its host between
    [Lock] and [Unlock]. *)
Definition owned (s : System) : Prop :=
  forall h, h ∈ held s ->
    exists i c, conns s !! i = Some c /\ connHost c = h
                /\ inSection (connPc c) = true.

(** Goroutine [i] has not returned and is not waiting for a locked
    mutex. *)
Definition ready (s : System) (i : nat) : Prop :=
  exists c, conns s !! i = Some c /\ connPc c <> Closed
            /\ (connPc c = AtLock -> connHost c ∉ held s).

(** A goroutine that [needsProxy] has let through and that has not
    returned. *)
Definition pastPolicy (pc : Pc) : bool :=
  match pc with
  | AtLock | AtCacheCheck | AtResolve | AtDial _ | AtUnlock _ | AtSplice =>
      true
  | _ => false
  end.

(** The hosts something has been done for beyond the policy check. *)
Definition touched (s : System) (h : string) : Prop :=
  h ∈ resolved s \/ is_Some (cacheResolv (shared s) !! h)
  \/ h ∈ resolvLock (shared s) \/ h ∈ held s.

(** *** init

    What the start of the process finds: the contents [ioutil.ReadFile]
    returns for a path ([None] for an error), the bytes of the first PEM
    block [pem.Decode] finds in a text ([None] when it finds no block and
    returns a nil pointer), and the two parsers ([None] for an error). *)
Record Startup : Type := mkStartup {
  ReadFile : string -> option string;
  pemDecode : string -> option string;
  ParseCertificate : string -> option x509.Certificate;
  ParsePKCS1PrivateKey : string -> option Z
}.

Definition caCert : string := "CERT_PUBC.crt".
Definition caKey : string := "CERT_PRIC.key".

(** [init]: the values of [caParent] and [caPriKey].  [certDERBlock.Bytes]
    and [keyDERBlock.Bytes] dereference what [pem.Decode] returned. *)
Definition init (o : Startup) : Run (x509.Certificate * Z) :=
  match ReadFile o caCert with
  | None => Fatal
  | Some certPEMBlock =>
      let* certDERBytes := checked (pemDecode o certPEMBlock) in
      match ParseCertificate o certDERBytes with
      | None => Fatal
      | Some caParent =>
          match ReadFile o caKey with
          | None => Fatal
          | Some keyPEMBlock =>
              let* keyDERBytes := checked (pemDecode o keyPEMBlock) in
              match ParsePKCS1PrivateKey o keyDERBytes with
              | None => Fatal
              | Some caPriKey => Done (caParent, caPriKey)
              end
          end
      end
  end.

(** ** Sample runs

    The values the sample peer and the sample run produce, used where a
    statement is applied to concrete data. *)

Module fixtures.

(** The leaf the sample mint makes for [example.com]. *)
Definition leaf : tls.Certificate :=
  tls.mkCertificate
    (x509.mkCertificate 42 "example.com" ["CN"] 1000 (1000 + certExpire)
       [x509.ExtKeyUsageServerAuth] true ["*.example.com"; "example.com"])
    7.

(** What the sample peer's resolver is asked about [www.example.com],
    and the target it yields. *)
Definition asked : list Event :=
  [Exchange gfwDnsCli (query sample.Fqdn "www.example.com" dns.TypeAAAA)
     gfwDNS;
   Exchange gfwDnsCli (query sample.Fqdn "www.example.com" dns.TypeA) gfwDNS;
   LogErr WarnLevel].

Definition stored : Resolv := mkResolv "[::1234]:443" (2000 + cacheAddrTtl).


Definition after_first : Globals :=
  mkGlobals {["example.com"]} {["www.example.com"]}
    (<["example.com" := leaf]> ∅) (<["www.example.com" := stored]> ∅).

(** The system after the run [sample.race]. *)
Definition after_race : System :=
  mkSystem after_first ∅
    [mkConn "www.example.com" AtSplice; mkConn "www.example.com" AtSplice]
    ["example.com"; "example.com"] ["www.example.com"].

End fixtures.


(** * Theorems *)

(** ** Strings *)

Section StringFacts.

Implicit Types (s p q : string) (c : ascii) (n : nat).

Lemma len_nonneg s : 0 <= len s.
Proof. unfold len. lia. Qed.

Lemma sapp_cons a s p : String a s +:+ p = String a (s +:+ p).
Proof. reflexivity. Qed.

Lemma sapp_nil s : "" +:+ s = s.
Proof. reflexivity. Qed.

Lemma sapp_length s p :
  String.length (s +:+ p) = (String.length s + String.length p)%nat.
Proof.
  induction s as [|a s IH]; rewrite ?sapp_cons; simpl; [done | by f_equal].
Qed.

Lemma sapp_assoc s p q : (s +:+ p) +:+ q = s +:+ (p +:+ q).
Proof.
  induction s as [|a s IH]; rewrite ?sapp_cons; simpl; [done | by f_equal].
Qed.

Lemma stake_drop n s : take n s +:+ drop n s = s.
Proof.
  revert s; induction n as [|n IH]; intros [|a s]; simpl; try done.
  by rewrite sapp_cons, IH.
Qed.

Lemma sdrop_app s p : drop (String.length s) (s +:+ p) = p.
Proof. induction s as [|a s IH]; rewrite ?sapp_cons; simpl; done. Qed.

Lemma stake_app s p : take (String.length s) (s +:+ p) = s.
Proof.
  induction s as [|a s IH]; [by destruct p|].
  rewrite sapp_cons. simpl. by rewrite IH.
Qed.

Lemma stake_length n s :
  (n <= String.length s)%nat -> String.length (take n s) = n.
Proof.
  revert s; induction n as [|n IH]; intros [|a s]; simpl; try lia.
  intros H. rewrite IH; lia.
Qed.

Lemma get_take n m s :
  (n < m)%nat -> String.get n (take m s) = String.get n s.
Proof.
  revert m s; induction n as [|n IH]; intros [|m] [|a s] H; simpl;
    try done; try lia.
  apply IH. lia.
Qed.

Lemma eqb_app_longer p s : p <> "" -> String.eqb (p +:+ s) s = false.
Proof.
  intros Hp. apply String.eqb_neq. intros E.
  apply (f_equal String.length) in E. rewrite sapp_length in E.
  destruct p; [done | simpl in E; lia].
Qed.

Lemma LastIndexByte_range s c : -1 <= LastIndexByte s c < len s.
Proof.
  unfold len. induction s as [|a s IH]; simpl; [lia|].
  destruct (0 <=? LastIndexByte s c) eqn:E; [lia|].
  destruct (Ascii.eqb a c); lia.
Qed.

Lemma LastIndexByte_hit s c :
  0 <= LastIndexByte s c ->
  String.get (Z.to_nat (LastIndexByte s c)) s = Some c.
Proof.
  induction s as [|a s IH]; simpl; [lia|].
  destruct (0 <=? LastIndexByte s c) eqn:E.
  - intros _. apply Z.leb_le in E.
    replace (Z.to_nat (LastIndexByte s c + 1))
      with (S (Z.to_nat (LastIndexByte s c))) by lia.
    simpl. auto.
  - destruct (Ascii.eqb a c) eqn:Ea; [|lia].
    intros _. apply Ascii.eqb_eq in Ea. by subst.
Qed.

Lemma IndexByte_range s c : -1 <= IndexByte s c < len s.
Proof.
  unfold len. induction s as [|a s IH]; simpl; [lia|].
  destruct (Ascii.eqb a c); [lia|].
  destruct (IndexByte s c <? 0); lia.
Qed.

Lemma IndexByte_app_hit s p c :
  IndexByte s c = -1 -> IndexByte (s +:+ String c p) c = len s.
Proof.
  unfold len. induction s as [|a s IH]; rewrite ?sapp_cons, ?sapp_nil; simpl.
  - intros _. by rewrite Ascii.eqb_refl.
  - destruct (Ascii.eqb a c); [lia|].
    pose proof (IndexByte_range s c) as Hr.
    destruct (IndexByte s c <? 0) eqn:E; [|apply Z.ltb_ge in E; lia].
    intros _. apply Z.ltb_lt in E. rewrite IH by lia.
    destruct (Z.of_nat (String.length s) <? 0) eqn:E';
      [apply Z.ltb_lt in E'; lia | lia].
Qed.

Lemma slice_from_app s p :
  slice_from (s +:+ p) (len s) = Some p.
Proof.
  unfold slice_from, len. rewrite sapp_length.
  destruct (0 <=? Z.of_nat (String.length s)) eqn:E1; [|apply Z.leb_gt in E1; lia].
  destruct (Z.of_nat (String.length s) <=?
            Z.of_nat (String.length s + String.length p)) eqn:E2;
    [|apply Z.leb_gt in E2; lia].
  simpl. by rewrite Nat2Z.id, sdrop_app.
Qed.

Lemma sdrop_length n s :
  String.length (drop n s) = (String.length s - n)%nat.
Proof.
  revert s; induction n as [|n IH]; intros [|a s]; simpl; try done; lia.
Qed.

Lemma slice_after_first s c :
  slice_from s (IndexByte s c + 1)
  = Some (drop (Z.to_nat (IndexByte s c + 1)) s).
Proof.
  pose proof (IndexByte_range s c) as H. unfold slice_from.
  destruct (0 <=? IndexByte s c + 1) eqn:E1; [|apply Z.leb_gt in E1; lia].
  destruct (IndexByte s c + 1 <=? len s) eqn:E2; [|apply Z.leb_gt in E2; lia].
  done.
Qed.

End StringFacts.

(** ** The label structure of names *)

Section Labels.

Implicit Types (s p q : string) (c : ascii) (n : nat).

Lemma labels_tail p1 p2 : labels (p1 +:+ p2) = true -> labels p2 = true.
Proof.
  induction p1 as [|c r IH]; [done|].
  rewrite sapp_cons. simpl.
  destruct (r +:+ p2) eqn:E; [|auto].
  destruct r; [|done]. rewrite sapp_nil in E. by subst.
Qed.

Lemma labels_app p1 p2 :
  labels p1 = true -> labels p2 = true -> labels (p1 +:+ p2) = true.
Proof.
  intros H1 H2. induction p1 as [|c r IH]; [done|].
  rewrite sapp_cons. simpl in *.
  destruct r as [|d r'].
  - rewrite sapp_nil. destruct p2; done.
  - rewrite sapp_cons in *. auto.
Qed.

Lemma labels_take n s :
  String.get n s = Some "."%char -> labels (take (S n) s) = true.
Proof.
  revert s; induction n as [|n IH]; intros [|a s]; simpl; try done.
  - intros [= ->]. by destruct s.
  - intros H. specialize (IH _ H). destruct s as [|b s]; [done|].
    simpl in *. done.
Qed.

(** A non-empty run of labels starts with a dot-free label and its dot. *)
Lemma first_label p :
  p <> "" -> labels p = true ->
  exists a p', p = a +:+ String "." p' /\ IndexByte a "." = -1
               /\ labels p' = true.
Proof.
  induction p as [|c r IH]; [done|]. intros _ H.
  destruct (Ascii.eqb c ".") eqn:Ec.
  - apply Ascii.eqb_eq in Ec. subst c. exists "", r.
    split; [done|]. split; [done|].
    simpl in H. destruct r; done.
  - simpl in H. destruct r as [|d r']; [congruence|].
    destruct IH as (a & p' & E & Ha & Hp'); [done | done |].
    exists (String c a), p'. rewrite sapp_cons, <- E.
    split; [done|]. split; [|done].
    simpl. rewrite Ec, Ha. done.
Qed.

(** Two ways of cutting a name after whole labels agree on the first
    label. *)
Lemma first_label_split p1 p2 a p' :
  p1 <> "" -> labels p1 = true ->
  p1 +:+ p2 = a +:+ String "." p' -> IndexByte a "." = -1 ->
  exists r, p1 = a +:+ String "." r /\ labels r = true /\ p' = r +:+ p2.
Proof.
  revert p1. induction a as [|x a IH]; intros [|c r1] Hne Hl E Ha; try done.
  - rewrite sapp_cons, sapp_nil in E. injection E as -> E.
    exists r1. split; [done|]. split; [|done].
    simpl in Hl. destruct r1; done.
  - rewrite !sapp_cons in E. injection E as -> E.
    simpl in Ha. destruct (Ascii.eqb x ".") eqn:Ex; [lia|].
    destruct (IndexByte a "." <? 0) eqn:Elt; [|lia].
    assert (Ha' : IndexByte a "." = -1).
    { apply Z.ltb_lt in Elt. pose proof (IndexByte_range a "."). lia. }
    simpl in Hl. destruct r1 as [|d r1']; [congruence|].
    destruct (IH (String d r1')) as (r & E1 & Hr & E2); try done.
    exists r. rewrite sapp_cons, <- E1. done.
Qed.

Lemma sapp_inv_tail p q s : p +:+ s = q +:+ s -> p = q.
Proof.
  revert q. induction p as [|a p IH]; intros [|b q] E; try done.
  - apply (f_equal String.length) in E.
    rewrite sapp_nil, sapp_cons in E. simpl in E. rewrite sapp_length in E. lia.
  - apply (f_equal String.length) in E.
    rewrite sapp_nil, sapp_cons in E. simpl in E. rewrite sapp_length in E. lia.
  - rewrite !sapp_cons in E. injection E as -> E. f_equal. auto.
Qed.

Lemma get_lt n s :
  (n < String.length s)%nat -> exists c, String.get n s = Some c.
Proof.
  revert s; induction n as [|n IH]; intros [|a s]; simpl; try lia; eauto.
  intros H. apply IH. lia.
Qed.

End Labels.

(** ** publicsuffix.EffectiveTLDPlusOne *)

Section PublicSuffixFacts.

Variable PublicSuffix : string -> string.

Abbreviation EffectiveTLDPlusOne :=
  (publicsuffix.EffectiveTLDPlusOne PublicSuffix).

(** The library call returns (a value or an error) on every name, and a
    value is the name with whole leading labels removed. *)
Lemma EffectiveTLDPlusOne_returns domain :
  exists r, EffectiveTLDPlusOne domain = Done r
            /\ forall base, r = Some base -> strips_to domain base.
Proof.
  unfold publicsuffix.EffectiveTLDPlusOne.
  destruct (_ || _ || _); [by exists None|].
  destruct (len domain <=? len (PublicSuffix domain)) eqn:El;
    [by exists None|].
  apply Z.leb_gt in El.
  pose proof (len_nonneg (PublicSuffix domain)) as Hs.
  set (i := len domain - len (PublicSuffix domain) - 1).
  assert (Hi : 0 <= i < len domain) by (unfold i; lia).
  unfold index. destruct (0 <=? i) eqn:E0; [|apply Z.leb_gt in E0; lia].
  destruct (get_lt (Z.to_nat i) domain) as [c Hc]; [unfold len in Hi; lia|].
  rewrite Hc. simpl.
  destruct (Ascii.eqb c "."); simpl; [|by exists None].
  unfold slice_to. rewrite E0.
  destruct (i <=? len domain) eqn:E1; [|apply Z.leb_gt in E1; lia].
  simpl.
  set (head := take (Z.to_nat i) domain).
  pose proof (LastIndexByte_range head ".") as Hj.
  assert (Hh : len head = i).
  { unfold head, len. rewrite stake_length; unfold len in Hi; lia. }
  set (j := LastIndexByte head ".") in *.
  unfold slice_from.
  destruct (0 <=? 1 + j) eqn:E2; [|apply Z.leb_gt in E2; lia].
  destruct (1 + j <=? len domain) eqn:E3; [|apply Z.leb_gt in E3; lia].
  simpl. eexists; split; [done|].
  intros base [= <-]. exists (take (Z.to_nat (1 + j)) domain).
  split; [by rewrite stake_drop|].
  destruct (Z.eq_dec j (-1)) as [->|Hne]; [done|].
  replace (Z.to_nat (1 + j)) with (S (Z.to_nat j)) by lia.
  apply labels_take.
  rewrite <- (get_take _ (Z.to_nat i)) by lia.
  apply LastIndexByte_hit. change (0 <= j). lia.
Qed.

End PublicSuffixFacts.

(** ** needsProxy *)

Section Matcher.

Variable PublicSuffix : string -> string.
Variable proxyAddr : gset string.

Abbreviation loop := (needsProxy_loop proxyAddr).

(** More fuel never changes an answer of the loop. *)
Lemma needsProxy_loop_fuel fuel extra domain secondary b :
  loop fuel domain secondary = Done b ->
  loop (fuel + extra) domain secondary = Done b.
Proof.
  revert domain. induction fuel as [|fuel IH]; intros domain; [done|].
  simpl. destruct (String.eqb domain secondary); [done|].
  destruct (slice_from domain _) as [d|]; [|done]. simpl.
  destruct (bool_decide _); [done|]. apply IH.
Qed.

(** The fuel [needsProxy] gives the loop is all a terminating run can
    use: a run that has not left the loop by then stays in it for ever. *)
Lemma needsProxy_loop_spin fuel domain secondary :
  (String.length domain < fuel)%nat ->
  loop fuel domain secondary = Spin ->
  forall fuel', loop fuel' domain secondary = Spin.
Proof.
  revert domain. induction fuel as [|fuel IH]; intros domain Hf; [lia|].
  simpl. destruct (String.eqb domain secondary) eqn:Eq; [done|].
  rewrite slice_after_first. cbn [checked run_bind].
  set (domain' := drop (Z.to_nat (IndexByte domain "." + 1)) domain).
  destruct (bool_decide (domain' ∈ proxyAddr)) eqn:Ein; [done|].
  intros Hspin.
  assert (Hturn : forall f, loop (S f) domain secondary
                            = loop f domain' secondary).
  { intros f. simpl. rewrite Eq, slice_after_first. cbn [checked run_bind].
    fold domain'. by rewrite Ein. }
  pose proof (IndexByte_range domain ".") as Hr.
  destruct (Z.eq_dec (IndexByte domain ".") (-1)) as [Hnone | Hsome].
  - assert (Esame : domain' = domain) by (unfold domain'; by rewrite Hnone).
    rewrite Esame in Hturn.
    intros fuel'. induction fuel' as [|f IHf]; [done|]. by rewrite Hturn.
  - assert (Hshort : (String.length domain' < fuel)%nat).
    { unfold domain'. rewrite sdrop_length. unfold len in Hr. lia. }
    intros [|f]; [done|]. rewrite Hturn. by apply IH.
Qed.

(** The loop on a name that is [secondary] behind whole labels [p]: it
    leaves within [length p] turns, and answers whether a form strictly
    below the name is in the set. *)
Lemma needsProxy_loop_spec fuel p secondary :
  labels p = true -> (String.length p < fuel)%nat ->
  exists b, loop fuel (p +:+ secondary) secondary = Done b
    /\ (b = true <->
        exists p1 p2, p = p1 +:+ p2 /\ p1 <> "" /\ labels p1 = true
                      /\ p2 +:+ secondary ∈ proxyAddr).
Proof.
  revert p. induction fuel as [|fuel IH]; intros p Hl Hf; [lia|].
  simpl. destruct p as [|c r] eqn:Ep.
  - rewrite sapp_nil, String.eqb_refl. exists false. split; [done|].
    split; [done|]. intros (p1 & p2 & E & Hne & _).
    destruct p1; done.
  - rewrite <- Ep in *. assert (Hne : p <> "") by (subst; done).
    clear Ep c r. rewrite eqb_app_longer by done.
    destruct (first_label p Hne Hl) as (a & p' & E & Ha & Hp').
    subst p. rewrite sapp_assoc, sapp_cons.
    rewrite (IndexByte_app_hit a _ "." Ha).
    assert (Hd : labels (a +:+ ".") = true).
    { clear. induction a as [|x a IH]; [done|].
      rewrite sapp_cons. simpl. destruct (a +:+ ".") eqn:E; [|done].
      destruct a; done. }
    assert (Hs : slice_from (a +:+ String "." (p' +:+ secondary)) (len a + 1)
                 = Some (p' +:+ secondary)).
    { replace (a +:+ String "." (p' +:+ secondary))
        with ((a +:+ ".") +:+ (p' +:+ secondary))
        by (by rewrite sapp_assoc).
      replace (len a + 1) with (len (a +:+ ".")).
      - apply slice_from_app.
      - unfold len. rewrite sapp_length. simpl. lia. }
    rewrite Hs. simpl.
    destruct (bool_decide (p' +:+ secondary ∈ proxyAddr)) eqn:Ein.
    + exists true. split; [done|]. split; [|done]. intros _.
      exists (a +:+ "."), p'. apply bool_decide_eq_true in Ein.
      split; [by rewrite sapp_assoc|]. split; [by destruct a|]. done.
    + apply bool_decide_eq_false in Ein.
      destruct (IH p') as (b & Hb & Hiff); [done| |].
      { rewrite sapp_length in Hf. simpl in Hf. lia. }
      exists b. split; [done|]. rewrite Hiff. split.
      * intros (p1 & p2 & E' & Hne' & Hl1 & Hin).
        exists (a +:+ String "." p1), p2.
        split; [by rewrite E', sapp_assoc, sapp_cons|].
        split; [by destruct a|]. split; [|done].
        replace (a +:+ String "." p1) with ((a +:+ ".") +:+ p1)
          by (by rewrite sapp_assoc).
        by apply labels_app.
      * intros (p1 & p2 & E' & Hne' & Hl1 & Hin).
        symmetry in E'.
        destruct (first_label_split p1 p2 a p' Hne' Hl1 E' Ha)
          as (r0 & E1 & Hr0 & E2).
        destruct r0 as [|d r0'] eqn:Er0.
        -- rewrite sapp_nil in E2. subst p2. done.
        -- exists r0, p2. subst r0. done.
Qed.

End Matcher.

Section MatcherClaims.

Variable PublicSuffix : string -> string.
Variable proxyAddr : gset string.

Abbreviation eTLD1 := (publicsuffix.EffectiveTLDPlusOne PublicSuffix).
Abbreviation matcher := (needsProxy PublicSuffix proxyAddr).

(** The loop of the matcher on the value the library returned. *)
Lemma needsProxy_loop_leaves domain base :
  eTLD1 domain = Done (Some base) ->
  exists b, forall extra,
    needsProxy_loop proxyAddr (S (String.length domain) + extra) domain base
    = Done b.
Proof.
  intros He.
  destruct (EffectiveTLDPlusOne_returns PublicSuffix domain) as (r & Hr & Hs).
  rewrite He in Hr. injection Hr as <-.
  destruct (Hs base eq_refl) as (p & -> & Hp).
  destruct (needsProxy_loop_spec proxyAddr
              (S (String.length (p +:+ base))) p base Hp) as (b & Hb & _).
  { rewrite sapp_length. lia. }
  exists b. intros extra. by apply needsProxy_loop_fuel.
Qed.

(** C7.  On every hostname the matcher returns an answer: the call
    neither panics nor stays in the label-stripping loop, whether or not
    a form of the name is in the policy set; and when the library
    returned a base, the loop leaves with the same answer however many
    more turns it is allowed. *)
Theorem needsProxy_terminates (domain : string) :
  (exists b, matcher domain = Done b)
  /\ match eTLD1 domain with
     | Done (Some base) =>
         exists b, forall extra,
           needsProxy_loop proxyAddr (S (String.length domain) + extra)
             domain base = Done b
     | Done None => True
     | _ => False
     end.
Proof.
  unfold needsProxy.
  destruct (EffectiveTLDPlusOne_returns PublicSuffix domain) as (r & Hr & _).
  rewrite Hr. destruct r as [base|].
  - destruct (needsProxy_loop_leaves domain base Hr) as (b & Hb).
    split; [|by exists b].
    destruct (bool_decide _); [by exists true|]. cbn [run_bind].
    exists b. specialize (Hb 0%nat). by rewrite Nat.add_0_r in Hb.
  - split; [|done]. destruct (bool_decide _); by eexists.
Qed.

(** C6, as the code has it.  When the library returns a base for [h],
    the matcher answers true exactly when one of the forms of the walk
    from [h] down to the base (both included) is in the policy set, and
    false otherwise; when the library reports an error, the matcher
    answers whether [h] itself is in the set. *)
Theorem needsProxy_spec (h : string) :
  (forall base, eTLD1 h = Done (Some base) ->
     (matcher h = Done true <->
      exists s, walk_form h base s /\ s ∈ proxyAddr)
     /\ (matcher h = Done true \/ matcher h = Done false))
  /\ (eTLD1 h = Done None ->
      matcher h = Done (bool_decide (h ∈ proxyAddr))).
Proof.
  split.
  - intros base He.
    destruct (EffectiveTLDPlusOne_returns PublicSuffix h) as (r & Hr & Hs).
    rewrite He in Hr. injection Hr as <-.
    pose proof (Hs base eq_refl) as Hbase.
    destruct Hbase as (p & Eh & Hp).
    unfold needsProxy. rewrite He. cbn [run_bind].
    destruct (bool_decide (h ∈ proxyAddr)) eqn:Ein.
    { apply bool_decide_eq_true in Ein. split; [|by left].
      split; [|done]. intros _. exists h. split; [|done].
      split; [by exists ""|]. by exists p. }
    apply bool_decide_eq_false in Ein.
    destruct (needsProxy_loop_spec proxyAddr (S (String.length h)) p base Hp)
      as (b & Hb & Hiff).
    { rewrite Eh, sapp_length. lia. }
    rewrite <- Eh in Hb. rewrite Hb. split; [|destruct b; auto].
    split.
    + intros [= ->]. destruct (proj1 Hiff eq_refl)
        as (p1 & p2 & Ep & Hne & Hl1 & Hin).
      exists (p2 +:+ base). split; [|done]. split.
      * exists p1. by rewrite Eh, Ep, sapp_assoc.
      * exists p2. split; [done|]. rewrite Ep in Hp.
        by apply labels_tail in Hp.
    + intros (s & [(q & Eq & Hq) (q2 & Eq2 & Hq2)] & Hin).
      f_equal. apply Hiff. exists q, q2.
      split.
      { apply (sapp_inv_tail _ _ base).
        by rewrite <- Eh, sapp_assoc, <- Eq2. }
      split; [|by rewrite <- Eq2].
      intros ->. rewrite sapp_nil in Eq. by subst.
  - intros He. unfold needsProxy. rewrite He.
    by destruct (bool_decide _).
Qed.

End MatcherClaims.

Lemma needsProxy_spec_witness :
  (needsProxy publicsuffix.sampleSuffix {["example.com"]} "a.b.example.com"
   = Done true <->
   exists s, walk_form "a.b.example.com" "example.com" s
             /\ s ∈ ({["example.com"]} : gset string))
  /\ needsProxy publicsuffix.sampleSuffix {["localhost"]} "localhost"
     = Done (bool_decide ("localhost" ∈ ({["localhost"]} : gset string))).
Proof.
  split.
  - apply (proj1 (needsProxy_spec publicsuffix.sampleSuffix {["example.com"]}
                    "a.b.example.com") "example.com").
    vm_compute. reflexivity.
  - apply (proj2 (needsProxy_spec publicsuffix.sampleSuffix {["localhost"]}
                    "localhost")).
    vm_compute. reflexivity.
Defined.

(** The matcher answers true on a name for which the library reports an
    error, when the name itself is a policy entry. *)
Lemma needsProxy_error_not_false :
  publicsuffix.EffectiveTLDPlusOne publicsuffix.sampleSuffix "com" = Done None
  /\ needsProxy publicsuffix.sampleSuffix {["com"]} "com" <> Done false.
Proof. split; [|intros H]; vm_compute in *; congruence. Qed.

(** ** forwardDns *)

Section Responder.

Variable PublicSuffix : string -> string.
Variable proxyAddr : gset string.
Variable exchange : dns.Exchanger.

Abbreviation handler := (forwardDns PublicSuffix proxyAddr exchange).

Lemma slice_to_trailing name c :
  slice_to (name +:+ String c "") (len (name +:+ String c "") - 1)
  = Some name.
Proof.
  unfold slice_to, len. rewrite sapp_length. simpl.
  replace (Z.of_nat (String.length name + 1) - 1)
    with (Z.of_nat (String.length name)) by lia.
  destruct (0 <=? Z.of_nat (String.length name)) eqn:E1;
    [|apply Z.leb_gt in E1; lia].
  destruct (Z.of_nat (String.length name) <=?
            Z.of_nat (String.length name + 1)) eqn:E2;
    [|apply Z.leb_gt in E2; lia].
  simpl. rewrite Nat2Z.id. f_equal. apply stake_app.
Qed.

(** C8.  A request with one question of type A or AAAA whose name,
    without its trailing dot, the matcher accepts is answered by the
    handler itself: the message written has exactly one answer, of the
    type asked, for the name asked, class INET, TTL 60, carrying
    127.0.0.1 for A and ::1 for AAAA; its Authoritative bit is set and
    its question section is the request's. *)
Theorem forwardDns_in_policy (m : dns.Msg) (q : dns.Question) (name : string) :
  dns.Questions m = [q] ->
  dns.Qtype q = dns.TypeA \/ dns.Qtype q = dns.TypeAAAA ->
  dns.Name q = name +:+ "." ->
  needsProxy PublicSuffix proxyAddr name = Done true ->
  exists msg,
    handler m = Done (WriteMsg msg [])
    /\ dns.Answer msg =
         [let hdr := dns.mkHeader (dns.Name q) (dns.Qtype q) dns.ClassINET 60 in
          if dns.Qtype q =? dns.TypeA
          then dns.A hdr (net.IPv4 127 0 0 1)
          else dns.AAAA hdr net.IPv6loopback]
    /\ dns.Authoritative (dns.Hdr msg) = true
    /\ dns.Questions msg = dns.Questions m
    /\ dns.Response (dns.Hdr msg) = true
    /\ dns.Id (dns.Hdr msg) = dns.Id (dns.Hdr m).
Proof.
  intros Hq Ht Hn Hp. unfold forwardDns. rewrite Hq.
  cbn [length Z.of_nat Z.ltb Z.compare run_bind checked lookup list_lookup].
  assert (Hor : (dns.Qtype q =? dns.TypeA) || (dns.Qtype q =? dns.TypeAAAA)
                = true).
  { destruct Ht as [Ht | Ht]; rewrite Ht; reflexivity. }
  rewrite Hor, Hn, slice_to_trailing. cbn [checked run_bind].
  rewrite Hp. cbn [run_bind].
  eexists. split; [reflexivity|].
  destruct Ht as [Ht | Ht]; rewrite Ht; simpl; rewrite Hq;
    repeat split; reflexivity.
Qed.

(** C10.  On a request without any question the handler panics: the
    guard only rejects more than one question, and the first question is
    read next. *)
Theorem forwardDns_no_question (m : dns.Msg) :
  dns.Questions m = [] -> handler m = Panic.
Proof. intros Hq. unfold forwardDns. by rewrite Hq. Qed.

End Responder.

Lemma forwardDns_in_policy_witness :
  exists msg,
    forwardDns publicsuffix.sampleSuffix {["example.com"]} sample.exchangeV6Only
      (query sample.Fqdn "www.example.com" dns.TypeA)
    = Done (WriteMsg msg [])
    /\ dns.Answer msg =
         [dns.A (dns.mkHeader "www.example.com." dns.TypeA dns.ClassINET 60)
            (net.IPv4 127 0 0 1)]
    /\ dns.Authoritative (dns.Hdr msg) = true
    /\ dns.Questions msg
       = dns.Questions (query sample.Fqdn "www.example.com" dns.TypeA)
    /\ dns.Response (dns.Hdr msg) = true
    /\ dns.Id (dns.Hdr msg)
       = dns.Id (dns.Hdr (query sample.Fqdn "www.example.com" dns.TypeA)).
Proof.
  apply (forwardDns_in_policy publicsuffix.sampleSuffix {["example.com"]}
           sample.exchangeV6Only
           (query sample.Fqdn "www.example.com" dns.TypeA)
           (dns.mkQuestion "www.example.com." dns.TypeA dns.ClassINET)
           "www.example.com").
  - reflexivity.
  - left. reflexivity.
  - reflexivity.
  - vm_compute. reflexivity.
Defined.

Lemma forwardDns_no_question_witness :
  forwardDns publicsuffix.sampleSuffix {["example.com"]} sample.exchangeV6Only
    dns.newMsg = Panic.
Proof.
  apply (forwardDns_no_question publicsuffix.sampleSuffix {["example.com"]}
           sample.exchangeV6Only dns.newMsg).
  reflexivity.
Defined.

(** ** resolveRealIP *)

Section Resolver.

Variable Fqdn : string -> string.
Variable IPString : dns.IP -> string.
Variable exchange : dns.Exchanger.
Variable clock : nat -> Z.

Abbreviation resolve := (resolveRealIP Fqdn IPString exchange clock).
Abbreviation ask := (query Fqdn).
Abbreviation stamped := (targets IPString clock).

Lemma appendAAAA_targets answers ret :
  appendAAAA IPString clock ret answers
  = ret ++ stamped (length ret) (aaaa_of answers).
Proof.
  revert ret. induction answers as [|rr rest IH]; intros ret; simpl.
  - by rewrite app_nil_r.
  - destruct rr; simpl; rewrite IH; [done | | done].
    rewrite <- List.app_assoc, List.length_app. simpl.
    by rewrite Nat.add_1_r.
Qed.

Lemma appendA_targets answers ret :
  appendA IPString clock ret answers
  = ret ++ stamped (length ret) (a_of answers).
Proof.
  revert ret. induction answers as [|rr rest IH]; intros ret; simpl.
  - by rewrite app_nil_r.
  - destruct rr; simpl; rewrite IH; [ | done | done].
    rewrite <- List.app_assoc, List.length_app. simpl.
    by rewrite Nat.add_1_r.
Qed.

Lemma length_targets k ips : length (stamped k ips) = length ips.
Proof. revert k. induction ips; intros k; simpl; [done | by f_equal]. Qed.

(** C5, as the code has it.  The resolver first asks the TLS upstream
    [gfwDNS] for the AAAA records of the host.  If that exchange fails,
    nothing more is asked and the list is empty.  Otherwise it asks the
    same upstream for the A records; if this second exchange fails, the
    IPv6 targets gathered so far are returned; if it succeeds, they are
    followed by the IPv4 targets.  Targets keep the order of the
    answers. *)
Theorem resolveRealIP_spec (host : string) :
  (exchange gfwDnsCli (ask host dns.TypeAAAA) gfwDNS = None ->
   resolve host =
     Done ([], [Exchange gfwDnsCli (ask host dns.TypeAAAA) gfwDNS;
                LogErr WarnLevel]))
  /\ (forall r,
        exchange gfwDnsCli (ask host dns.TypeAAAA) gfwDNS = Some r ->
        exchange gfwDnsCli (ask host dns.TypeA) gfwDNS = None ->
        resolve host =
          Done (stamped 0 (aaaa_of (dns.Answer r)),
                [Exchange gfwDnsCli (ask host dns.TypeAAAA) gfwDNS;
                 Exchange gfwDnsCli (ask host dns.TypeA) gfwDNS;
                 LogErr WarnLevel]))
  /\ (forall r r',
        exchange gfwDnsCli (ask host dns.TypeAAAA) gfwDNS = Some r ->
        exchange gfwDnsCli (ask host dns.TypeA) gfwDNS = Some r' ->
        resolve host =
          Done (stamped 0 (aaaa_of (dns.Answer r))
                ++ stamped (length (aaaa_of (dns.Answer r)))
                     (a_of (dns.Answer r')),
                [Exchange gfwDnsCli (ask host dns.TypeAAAA) gfwDNS;
                 Exchange gfwDnsCli (ask host dns.TypeA) gfwDNS])).
Proof.
  unfold resolveRealIP, query. cbn [dns.setQtype0 dns.Questions checked
    run_bind dns.Name dns.Qclass dns.Hdr dns.Answer dns.Ns dns.Extra].
  repeat split.
  - intros ->. done.
  - intros r -> ->. by rewrite appendAAAA_targets.
  - intros r r' -> ->.
    rewrite appendA_targets, appendAAAA_targets. cbn [app length].
    by rewrite length_targets.
Qed.

(** The resolver returns on every host. *)
Lemma resolveRealIP_returns host :
  exists addrs t, resolve host = Done (addrs, t).
Proof.
  unfold resolveRealIP. destruct (exchange _ _ _); [|by eauto].
  cbn [dns.setQtype0 dns.Questions checked run_bind].
  destruct (exchange _ _ _); by eauto.
Qed.

End Resolver.

Lemma resolveRealIP_spec_witness :
  resolveRealIP sample.Fqdn sample.IPString sample.exchangeV6Only
    (fun _ => 0) "www.example.com"
  = Done (targets sample.IPString (fun _ => 0) 0
            (aaaa_of
               [dns.AAAA (dns.mkHeader "www.example.com." dns.TypeAAAA
                            dns.ClassINET 300)
                  [0; 0; 0; 0; 0; 0; 0; 0; 0; 0; 0; 0; 0; 0; 18; 52]]),
          [Exchange gfwDnsCli (query sample.Fqdn "www.example.com" dns.TypeAAAA)
             gfwDNS;
           Exchange gfwDnsCli (query sample.Fqdn "www.example.com" dns.TypeA)
             gfwDNS;
           LogErr WarnLevel]).
Proof.
  apply (proj1 (proj2 (resolveRealIP_spec sample.Fqdn sample.IPString
                         sample.exchangeV6Only (fun _ => 0)
                         "www.example.com"))
           (dns.setAnswer
              (dns.SetReply dns.newMsg
                 (query sample.Fqdn "www.example.com" dns.TypeAAAA))
              [dns.AAAA (dns.mkHeader "www.example.com." dns.TypeAAAA
                           dns.ClassINET 300)
                 [0; 0; 0; 0; 0; 0; 0; 0; 0; 0; 0; 0; 0; 0; 18; 52]])).
  - reflexivity.
  - reflexivity.
Defined.

(** The A exchange fails, and the list returned is not empty. *)
Lemma resolveRealIP_error_not_empty :
  sample.exchangeV6Only gfwDnsCli
    (query sample.Fqdn "www.example.com" dns.TypeA) gfwDNS = None
  /\ exists t,
       resolveRealIP sample.Fqdn sample.IPString sample.exchangeV6Only
         (fun _ => 0) "www.example.com"
       = Done ([mkResolv "[::1234]:443" cacheAddrTtl], t).
Proof. split; [reflexivity|]. eexists. vm_compute. reflexivity. Qed.

(** ** getCertificate *)

Section Mint.

Variable PublicSuffix : string -> string.

Abbreviation eTLD1 := (publicsuffix.EffectiveTLDPlusOne PublicSuffix).
Abbreviation mint := (getCertificate PublicSuffix).

(** What the [if info.ServerName == secondary] block computes. *)
Lemma cert_name_computed sni base cn :
  cert_name sni base cn ->
  certName sni base = Done cn.
Proof.
  unfold certName. intros [[-> ->] | (Hne & a & -> & Ha)].
  - by rewrite String.eqb_refl.
  - apply String.eqb_neq in Hne. rewrite Hne.
    rewrite (IndexByte_app_hit a cn "." Ha).
    replace (a +:+ String "." cn) with ((a +:+ ".") +:+ cn)
      by (by rewrite sapp_assoc).
    replace (len a + 1) with (len (a +:+ ".")).
    + by rewrite slice_from_app.
    + unfold len. rewrite sapp_length. simpl. lia.
Qed.


(** The library's base always yields a certificate name, which still ends
    in the base. *)
Lemma cert_name_exists sni base :
  eTLD1 sni = Done (Some base) ->
  exists cn, cert_name sni base cn /\ strips_to cn base.
Proof.
  intros He.
  destruct (EffectiveTLDPlusOne_returns PublicSuffix sni) as (r & Hr & Hs).
  rewrite He in Hr. injection Hr as <-.
  destruct (Hs base eq_refl) as (p & E & Hp).
  destruct (String.eqb sni base) eqn:Eb.
  - apply String.eqb_eq in Eb. exists base. split; [by left|by exists ""].
  - apply String.eqb_neq in Eb.
    assert (Hne : p <> "") by (intros ->; by rewrite sapp_nil in E).
    destruct (first_label p Hne Hp) as (a & p' & -> & Ha & Hp').
    exists (p' +:+ base). split; [|by exists p'].
    right. split; [done|]. exists a.
    by rewrite E, sapp_assoc, sapp_cons.
Qed.

Lemma getCertificate_hit env cache sni base cn cert :
  sni <> "" -> cache !! sni = None ->
  eTLD1 sni = Done (Some base) -> cert_name sni base cn ->
  cache !! cn = Some cert ->
  mint env cache sni = Done (Some cert, cache).
Proof.
  intros Hne Hmiss He Hcn Hhit. unfold getCertificate.
  apply String.eqb_neq in Hne. rewrite Hne, Hmiss, He. cbn [run_bind].
  rewrite (cert_name_computed _ _ _ Hcn). cbn [run_bind].
  by rewrite Hhit.
Qed.



(** The mint returns on every server name. *)
Lemma getCertificate_returns env cache sni :
  exists r cache', mint env cache sni = Done (r, cache').
Proof.
  unfold getCertificate.
  destruct (String.eqb sni ""); [by eauto|].
  destruct (cache !! sni); [by eauto|].
  destruct (EffectiveTLDPlusOne_returns PublicSuffix sni) as (r & Hr & Hs).
  rewrite Hr. cbn [run_bind]. destruct r as [base|]; [|by eauto].
  destruct (cert_name_exists sni base Hr) as (cn & Hcn & _).
  rewrite (cert_name_computed _ _ _ Hcn). cbn [run_bind].
  destruct (cache !! cn); [by eauto|].
  destruct (mintLeaf env cn); by eauto.
Qed.


End Mint.



(** ** updateConfig and the file watcher *)

Section PolicyStore.

Variable TrimSpace : string -> string.

Abbreviation reload := (updateConfig TrimSpace).

Lemma scanInto_elem texts acc e :
  e ∈ scanInto TrimSpace acc texts <->
  e ∈ acc \/ exists line, line ∈ texts /\ e = TrimSpace line /\ e <> "".
Proof.
  revert acc. induction texts as [|line rest IH]; intros acc; simpl.
  - split; [by left|]. intros [H | (l & Hl & _)]; [done|].
    by apply not_elem_of_nil in Hl.
  - destruct (String.eqb (TrimSpace line) "") eqn:E.
    + apply String.eqb_eq in E. rewrite IH. split.
      * intros [H | (l & Hl & H1 & H2)]; [by left|].
        right. exists l. split; [by apply elem_of_cons; right | done].
      * intros [H | (l & Hl & H1 & H2)]; [by left|].
        apply elem_of_cons in Hl as [-> | Hl]; [congruence|].
        right. by exists l.
    + apply String.eqb_neq in E. rewrite IH. split.
      * intros [H | (l & Hl & H1 & H2)].
        -- apply elem_of_union in H as [H | H]; [|by left].
           apply elem_of_singleton in H. subst e. right. exists line.
           split; [by apply elem_of_cons; left | done].
        -- right. exists l. split; [by apply elem_of_cons; right | done].
      * intros [H | (l & Hl & H1 & H2)].
        -- left. apply elem_of_union. by right.
        -- apply elem_of_cons in Hl as [-> | Hl].
           ++ left. apply elem_of_union. left. by apply elem_of_singleton.
           ++ right. by exists l.
Qed.

(** The entries of a reloaded set are the non-empty trimmed lines. *)
Lemma updateConfig_entries fs newMap :
  reload fs = Done newMap ->
  exists fil, Open fs = Some fil
    /\ forall e, e ∈ newMap <->
         exists line, line ∈ ScanText fil /\ e = TrimSpace line /\ e <> "".
Proof.
  unfold updateConfig. destruct (Open fs) as [fil|]; [|done].
  destruct (CloseOk fil); [|done]. intros [= <-].
  exists fil. split; [done|]. intros e. rewrite scanInto_elem.
  split; [|by right]. intros [H | H]; [|done].
  by apply not_elem_of_empty in H.
Qed.

(** C4, as the code has it.  A failure to stat or to open the
    configuration file ends the process ([log.Fatal]) at startup and in
    every later turn of the watcher alike: the turn does not return, and
    no turn after it runs.  The file is opened only when its size
    or modification time differs from the last observed ones; in a turn
    that finds them unchanged the active set is kept. *)
Theorem config_failure_is_fatal (fs : FileSystem) (w : Watch) :
  (Stat fs = None ->
     pollingFileChange TrimSpace fs = Fatal
     /\ pollOnce TrimSpace fs w = Fatal)
  /\ (Open fs = None ->
        pollingFileChange TrimSpace fs = Fatal
        /\ forall stat, Stat fs = Some stat ->
             Size stat <> Size (initStat w)
             \/ ModTime stat <> ModTime (initStat w) ->
             pollOnce TrimSpace fs w = Fatal)
  /\ (pollOnce TrimSpace fs w = Fatal ->
        forall rest, pollLoop TrimSpace (fs :: rest) w = Fatal)
  /\ (forall stat, Stat fs = Some stat ->
        Size stat = Size (initStat w) ->
        ModTime stat = ModTime (initStat w) ->
        pollOnce TrimSpace fs w = Done w).
Proof.
  unfold pollingFileChange, pollOnce, updateConfig.
  split; [|split; [|split]].
  - intros ->. done.
  - intros Ho. rewrite Ho. split; [by destruct (Stat fs)|].
    intros stat -> Hd.
    assert (Hc : negb (Size stat =? Size (initStat w))
                 || negb (ModTime stat =? ModTime (initStat w)) = true).
    { apply orb_true_iff. destruct Hd as [Hd | Hd]; [left | right];
        apply negb_true_iff, Z.eqb_neq; done. }
    by rewrite Hc.
  - intros H rest. cbn [pollLoop]. unfold pollOnce, updateConfig.
    by rewrite H.
  - intros stat -> Hs Hm. by rewrite Hs, Hm, !Z.eqb_refl.
Qed.

End PolicyStore.

Lemma config_failure_is_fatal_witness :
  pollOnce sample.TrimSpace (mkFileSystem None None)
    (mkWatch {["example.com"]} (mkFileInfo 12 0)) = Fatal
  /\ pollOnce sample.TrimSpace (mkFileSystem (Some (mkFileInfo 13 1)) None)
       (mkWatch {["example.com"]} (mkFileInfo 12 0)) = Fatal
  /\ pollLoop sample.TrimSpace
       [mkFileSystem None None;
        mkFileSystem (Some (mkFileInfo 12 0)) (Some (mkFile ["example.com"] true))]
       (mkWatch {["example.com"]} (mkFileInfo 12 0)) = Fatal
  /\ pollOnce sample.TrimSpace (mkFileSystem (Some (mkFileInfo 12 0)) None)
       (mkWatch {["example.com"]} (mkFileInfo 12 0))
     = Done (mkWatch {["example.com"]} (mkFileInfo 12 0)).
Proof.
  pose (w := mkWatch {["example.com"]} (mkFileInfo 12 0)).
  split; [|split; [|split]].
  - apply (proj1 (config_failure_is_fatal sample.TrimSpace
                    (mkFileSystem None None) w)).
    reflexivity.
  - apply (proj2 (proj1 (proj2 (config_failure_is_fatal sample.TrimSpace
             (mkFileSystem (Some (mkFileInfo 13 1)) None) w)) eq_refl)
             (mkFileInfo 13 1)).
    + reflexivity.
    + left. discriminate.
  - apply (proj1 (proj2 (proj2 (config_failure_is_fatal sample.TrimSpace
             (mkFileSystem None None) w)))).
    reflexivity.
  - apply (proj2 (proj2 (proj2 (config_failure_is_fatal sample.TrimSpace
             (mkFileSystem (Some (mkFileInfo 12 0)) None) w)))
             (mkFileInfo 12 0)); reflexivity.
Defined.

(** After startup, with a good set active, a failing stat and a failing
    open both end the process; neither turn returns with the set kept. *)
Lemma reload_failure_not_recovered :
  pollOnce sample.TrimSpace (mkFileSystem None None)
    (mkWatch {["example.com"]} (mkFileInfo 12 0)) = Fatal
  /\ pollOnce sample.TrimSpace (mkFileSystem (Some (mkFileInfo 13 1)) None)
       (mkWatch {["example.com"]} (mkFileInfo 12 0)) = Fatal.
Proof. split; reflexivity. Qed.

(** ** forwardTls *)

Section Engine.

Variable PublicSuffix : string -> string.
Variable Fqdn : string -> string.
Variable IPString : dns.IP -> string.
Variable TrimSpace : string -> string.

Abbreviation serve := (forwardTls PublicSuffix Fqdn IPString).
Abbreviation section := (resolveAndDial Fqdn IPString).

(** The critical section returns, and the only key of the resolve cache
    it can write is the host it was given. *)
Lemma resolveAndDial_writes p cache host :
  exists connected cache' t,
    section p cache host = Done (connected, cache', t)
    /\ forall k, k <> host -> cache' !! k = cache !! k.
Proof.
  unfold resolveAndDial.
  destruct (match cache !! host with
            | Some r =>
                if negb (Expired r (expiredNow p))
                then (dialOk p 0%nat (addr r), 1%nat, [Dial (addr r)])
                else (false, 0%nat, [])
            | None => (false, 0%nat, [])
            end) as [[connected n] t].
  destruct connected; [by eauto 6|].
  destruct (resolveRealIP_returns Fqdn IPString (exchange p) (resolveNow p)
              host) as (addrs & t' & ->).
  cbn [run_bind]. destruct addrs as [|a addrs]; [by eauto 6|].
  destruct (dialEach (dialOk p) n (a :: addrs)) as [[found|] t''];
    [|by eauto 6].
  do 3 eexists. split; [done|]. intros k Hk. by apply lookup_insert_ne.
Qed.


(** C9, as the code has it.  The entries of a reloaded policy set are
    the trimmed texts, where not empty, of the lines the scanner yields
    from the file, with their letters as written; and the only key one
    connection can write in the resolve cache is the server name of its
    ClientHello, as received.  Nothing is lowercased. *)
Theorem stored_as_received :
  (forall fs newMap,
     updateConfig TrimSpace fs = Done newMap ->
     exists fil, Open fs = Some fil
       /\ forall e, e ∈ newMap <->
            exists line, line ∈ ScanText fil /\ e = TrimSpace line /\ e <> "")
  /\ (forall p g g' t,
        serve p g = Done (g', t) ->
        forall k, cacheResolv g' !! k <> cacheResolv g !! k ->
                  ServerName p = Some k).
Proof.
  split; [apply updateConfig_entries|].
  intros p g g' t. unfold forwardTls, proxyHost.
  destruct (ServerName p) as [sni|]; [|by intros [= <- <-] k Hk].
  destruct (getCertificate_returns PublicSuffix (mintEnv p) (cacheCert g) sni)
    as (r & certs & Hc).
  rewrite Hc. cbn [run_bind proxyAddr cacheResolv resolvLock cacheCert].
  destruct r as [cert|]; [|by intros [= <- <-] k Hk].
  destruct (clientFinishes p); cbn [negb]; [|by intros [= <- <-] k Hk].
  destruct (needsProxy PublicSuffix (proxyAddr g) sni) as [b| | |];
    try done.
  cbn [run_bind]. destruct b; cbn [negb]; [|by intros [= <- <-] k Hk].
  destruct (resolveAndDial_writes p (cacheResolv g) sni)
    as (connected & cache' & t' & Hr & Hk).
  rewrite Hr. cbn [run_bind].
  intros Hrun k Hne. destruct (decide (k = sni)) as [-> | Hd]; [done|].
  exfalso. apply Hne.
  destruct connected; injection Hrun as <- <-; cbn [cacheResolv]; auto.
Qed.

End Engine.



(** A policy entry and a resolve-cache key that are not their own
    lowercasing: the line [Example.COM] of the file, and the server name
    [WWW.Example.COM] of a ClientHello. *)
Lemma stored_not_lowercased :
  match updateConfig sample.TrimSpace
          (mkFileSystem (Some (mkFileInfo 12 0))
             (Some (mkFile ["Example.COM"] true))) with
  | Done newMap =>
      "Example.COM" ∈ newMap /\ ToLower "Example.COM" <> "Example.COM"
  | _ => False
  end
  /\ match forwardTls publicsuffix.sampleSuffix sample.Fqdn sample.IPString
             (sample.peer "WWW.Example.COM")
             (sample.globals {["Example.COM"]}) with
     | Done (g', _) =>
         cacheResolv g' !! "WWW.Example.COM"
         = Some (mkResolv "[::1234]:443" (2000 + cacheAddrTtl))
         /\ ToLower "WWW.Example.COM" <> "WWW.Example.COM"
     | _ => False
     end.
Proof.
  split.
  - cbn [updateConfig Open CloseOk ScanText scanInto].
    change (sample.TrimSpace "Example.COM") with "Example.COM".
    cbn [String.eqb Ascii.eqb Bool.eqb]. split; [set_solver|].
    vm_compute. discriminate.
  - vm_compute. split; [reflexivity | discriminate].
Qed.

Lemma stored_as_received_witness :
  exists g' t,
    forwardTls publicsuffix.sampleSuffix sample.Fqdn sample.IPString
      (sample.peer "WWW.Example.COM") (sample.globals {["Example.COM"]})
    = Done (g', t)
    /\ forall k,
         cacheResolv g' !! k
         <> cacheResolv (sample.globals {["Example.COM"]}) !! k ->
         ServerName (sample.peer "WWW.Example.COM") = Some k.
Proof.
  destruct (forwardTls publicsuffix.sampleSuffix sample.Fqdn sample.IPString
              (sample.peer "WWW.Example.COM")
              (sample.globals {["Example.COM"]})) as [[g' t]| | |] eqn:E;
    try (vm_compute in E; discriminate E).
  exists g', t. split; [reflexivity|].
  exact (proj2 (stored_as_received publicsuffix.sampleSuffix sample.Fqdn
                  sample.IPString sample.TrimSpace)
           (sample.peer "WWW.Example.COM") (sample.globals {["Example.COM"]})
           g' t E).
Defined.

(** ** One goroutine on its own *)

Section Solo.

Variable PublicSuffix : string -> string.
Variable Fqdn : string -> string.
Variable IPString : dns.IP -> string.

Abbreviation step' := (step PublicSuffix Fqdn IPString).
Abbreviation exec' := (exec PublicSuffix Fqdn IPString).

Abbreviation reaches := (reaches PublicSuffix Fqdn IPString).

Lemma reaches_here p s (Q : System -> Prop) : Q s -> reaches p s Q.
Proof. intros H. by exists 0%nat, s. Qed.

Lemma reaches_step p s s1 (Q : System -> Prop) :
  step' s 0 p = Some s1 -> reaches p s1 Q -> reaches p s Q.
Proof.
  intros Hs (n & s' & Hrun & HQ). exists (S n), s'. split; [|done].
  simpl. by rewrite Hs.
Qed.

Lemma globals_eta g :
  mkGlobals (proxyAddr g) (resolvLock g) (cacheCert g) (cacheResolv g) = g.
Proof. by destruct g. Qed.

Ltac run_step :=
  eapply reaches_step;
  [ unfold step, goto, afterHandshake;
    cbn [conns shared held minted resolved connPc connHost lookup
         list_lookup proxyAddr resolvLock cacheCert cacheResolv];
    repeat match goal with
           | H : ?x = _ |- context [?x] => rewrite H
           end;
    cbn [negb andb];
    reflexivity
  | cbn [insert list_insert] ].

(** The [range addrs] loop, goroutine by step. *)
Lemma dial_reaches p g locks sni m r addrs n found t :
  (forall k a, dialOk p k a = dialOk p 0%nat a) ->
  dialEach (dialOk p) n addrs = (found, t) ->
  reaches p (mkSystem g locks [mkConn sni (AtDial addrs)] m r)
    (alone
       (match found with
        | Some a => mkGlobals (proxyAddr g) (resolvLock g) (cacheCert g)
                      (<[sni := a]> (cacheResolv g))
        | None => g
        end)
       locks sni (AtUnlock (bool_decide (is_Some found)))).
Proof.
  intros Hd. revert n t. induction addrs as [|a rest IH]; intros n t; simpl.
  - intros [= <- <-]. run_step. by apply reaches_here.
  - rewrite (Hd n). destruct (dialOk p 0%nat (addr a)) eqn:Ea.
    + intros [= <- <-]. run_step. by apply reaches_here.
    + destruct (dialEach (dialOk p) (S n) rest) as [f t'] eqn:Er.
      intros [= <- <-]. run_step. by apply (IH (S n) t').
Qed.

(** The critical section, from the lookup in the resolve cache to the
    state before [lock.Unlock()]. *)
Lemma section_reaches p g locks sni m r connected cache' t :
  (forall k a, dialOk p k a = dialOk p 0%nat a) ->
  resolveAndDial Fqdn IPString p (cacheResolv g) sni
  = Done (connected, cache', t) ->
  reaches p (mkSystem g locks [mkConn sni AtCacheCheck] m r)
    (alone (mkGlobals (proxyAddr g) (resolvLock g) (cacheCert g) cache')
       locks sni (AtUnlock connected)).
Proof.
  intros Hd. unfold resolveAndDial.
  set (cached :=
         match cacheResolv g !! sni with
         | Some r0 =>
             if negb (Expired r0 (expiredNow p))
             then (dialOk p 0%nat (addr r0), 1%nat, [Dial (addr r0)])
             else (false, 0%nat, [])
         | None => (false, 0%nat, [])
         end).
  assert (Hfirst :
    forall c n t0, cached = (c, n, t0) ->
      step' (mkSystem g locks [mkConn sni AtCacheCheck] m r) 0 p
      = Some (mkSystem g locks
                [mkConn sni (if c then AtUnlock true else AtResolve)] m r)).
  { intros c n t0. unfold cached, step, goto. simpl.
    destruct (cacheResolv g !! sni) as [r0|]; [|by intros [= <- <- <-]].
    destruct (negb (Expired r0 (expiredNow p))); simpl;
      [|by intros [= <- <- <-]].
    intros [= <- <- <-]. by destruct (dialOk p 0%nat (addr r0)). }
  destruct cached as [[c n] t0] eqn:Ec. specialize (Hfirst c n t0 eq_refl).
  destruct c.
  - intros [= <- <- <-]. eapply reaches_step; [exact Hfirst|].
    apply reaches_here. by rewrite globals_eta.
  - destruct (resolveRealIP Fqdn IPString (exchange p) (resolveNow p) sni)
      as [[addrs t']| | |] eqn:Er; try done.
    cbn [run_bind]. intros Hrun. eapply reaches_step; [exact Hfirst|].
    destruct addrs as [|a rest].
    + injection Hrun as <- <- <-. run_step. apply reaches_here.
      by rewrite globals_eta.
    + destruct (dialEach (dialOk p) n (a :: rest)) as [found t''] eqn:Ed.
      run_step.
      pose proof (dial_reaches p g locks sni m (sni :: r) (a :: rest) n
                    found t'' Hd Ed) as Hdial.
      destruct found as [b|]; injection Hrun as <- <- <-; simpl in Hdial;
        [done | by rewrite globals_eta].
Qed.

Lemma reaches_trans p s (Q R : System -> Prop) :
  reaches p s Q -> (forall s1, Q s1 -> reaches p s1 R) -> reaches p s R.
Proof.
  intros (n & s1 & Hrun & HQ) Hnext.
  destruct (Hnext s1 HQ) as (n2 & s2 & Hrun2 & HR).
  exists (n + n2)%nat, s2. split; [|done]. rewrite replicate_add.
  clear -Hrun Hrun2. revert s Hrun. induction n as [|n IH]; intros s; simpl.
  - by intros [= ->].
  - destruct (step' s 0 p); [apply IH | done].
Qed.

(** After the handshake: the policy check, the lock, the critical section
    and the relay. *)
Lemma proxyHost_alone p g locks sni m r g' t :
  (forall k a, dialOk p k a = dialOk p 0%nat a) ->
  sni ∉ locks ->
  proxyHost PublicSuffix Fqdn IPString p g sni = Done (g', t) ->
  reaches p (mkSystem g locks [mkConn sni AtPolicy] m r)
    (alone g' locks sni Closed).
Proof.
  intros Hd Hfree. unfold proxyHost.
  destruct (needsProxy PublicSuffix (proxyAddr g) sni) as [[|]| | |] eqn:En;
    try done; cbn [run_bind negb proxyAddr resolvLock cacheCert cacheResolv].
  2:{ intros [= <- <-]. run_step. by apply reaches_here. }
  destruct (resolveAndDial Fqdn IPString p (cacheResolv g) sni)
    as [[[connected cache'] t1]| | |] eqn:Esec; try done.
  cbn [run_bind]. intros Hrun.
  assert (Eg : g' = mkGlobals (proxyAddr g) ({[sni]} ∪ resolvLock g)
                      (cacheCert g) cache')
    by (destruct connected; by injection Hrun as <- <-).
  subst g'. clear Hrun. run_step.
  eapply reaches_step;
    [unfold step; simpl; rewrite bool_decide_eq_false_2 by done; reflexivity|].
  eapply reaches_trans.
  { apply (section_reaches p
             (mkGlobals (proxyAddr g) ({[sni]} ∪ resolvLock g) (cacheCert g)
                (cacheResolv g))
             ({[sni]} ∪ locks) sni m r connected cache' t1 Hd Esec). }
  intros [sh1 held1 conns1 m1 r1] (Hsh & Hheld & Hconns). simpl in *.
  subst sh1 held1 conns1.
  assert (Hl : ({[sni]} ∪ locks) ∖ {[sni]} = locks).
  { apply set_eq. intros x.
    rewrite elem_of_difference, elem_of_union, elem_of_singleton.
    split; [by intros [[-> | Hx] Hn] | intros Hx].
    split; [by right | by intros ->]. }
  destruct connected.
  - run_step. run_step. by apply reaches_here.
  - run_step. by apply reaches_here.
Qed.

(** A connection run on its own by [forwardTls] and the same connection
    run as the only goroutine of the system end with the same shared
    variables, and with the mutexes as they were. *)
Lemma forwardTls_alone p g locks sni m r g' t :
  (forall k a, dialOk p k a = dialOk p 0%nat a) ->
  sni ∉ locks -> ServerName p = Some sni ->
  forwardTls PublicSuffix Fqdn IPString p g = Done (g', t) ->
  reaches p (mkSystem g locks [mkConn sni AtHandshake] m r)
    (alone g' locks sni Closed).
Proof.
  intros Hd Hfree Hs. unfold forwardTls, getCertificate. rewrite Hs.
  assert (Hafter :
    forall certs cert m0,
      (if negb (clientFinishes p)
       then Done (mkGlobals (proxyAddr g) (resolvLock g) certs (cacheResolv g),
                  [SendCertificate cert; LogErr DebugLevel; Close Inbound])
       else
         let* served :=
           proxyHost PublicSuffix Fqdn IPString p
             (mkGlobals (proxyAddr g) (resolvLock g) certs (cacheResolv g))
             sni in
         let (g1, t1) := served in Done (g1, SendCertificate cert :: t1))
      = Done (g', t) ->
      reaches p
        (mkSystem (mkGlobals (proxyAddr g) (resolvLock g) certs (cacheResolv g))
           locks [mkConn sni (if clientFinishes p then AtPolicy else Closed)]
           m0 r)
        (alone g' locks sni Closed)).
  { intros certs cert m0. destruct (clientFinishes p); cbn [negb].
    - destruct (proxyHost _ _ _ _ _ _) as [[g1 t1]| | |] eqn:Ep; try done.
      cbn [run_bind]. intros [= <- <-].
      by apply (proxyHost_alone p _ locks sni m0 r g1 t1). 
    - intros [= <- <-]. by apply reaches_here. }
  destruct (String.eqb sni "") eqn:Ee.
  { cbn [run_bind]. intros [= <- <-]. run_step.
    apply reaches_here. by rewrite globals_eta. }
  destruct (cacheCert g !! sni) as [cert|] eqn:Ehit.
  { cbn [run_bind]. intros Hrun. run_step.
    rewrite <- (globals_eta g) at 1. by apply (Hafter (cacheCert g) cert m). }
  destruct (publicsuffix.EffectiveTLDPlusOne PublicSuffix sni)
    as [[secondary|]| | |] eqn:Et; try done; cbn [run_bind].
  2:{ intros [= <- <-]. run_step. apply reaches_here. by rewrite globals_eta. }
  destruct (certName sni secondary) as [cn| | |] eqn:Ecn; try done.
  cbn [run_bind].
  destruct (cacheCert g !! cn) as [cert|] eqn:Ehit2.
  { cbn [run_bind]. intros Hrun. run_step. run_step.
    rewrite <- (globals_eta g) at 1. by apply (Hafter (cacheCert g) cert m). }
  destruct (mintLeaf (mintEnv p) cn) as [cert|] eqn:Em; cbn [run_bind].
  2:{ intros [= <- <-]. run_step. run_step.
      apply reaches_here. by rewrite globals_eta. }
  intros Hrun. run_step. run_step. run_step.
  by apply (Hafter (<[cn := cert]> (cacheCert g)) cert (cn :: m)).
Qed.

(** The same, from the moment the connection is accepted. *)
Lemma forwardTls_refined p g sni g' t :
  (forall k a, dialOk p k a = dialOk p 0%nat a) ->
  ServerName p = Some sni ->
  forwardTls PublicSuffix Fqdn IPString p g = Done (g', t) ->
  exists n s,
    exec' (Accept sni :: replicate n (Go 0 p)) (mkSystem g ∅ [] [] [])
    = Some s
    /\ alone g' ∅ sni Closed s.
Proof.
  intros Hd Hs Hrun.
  destruct (forwardTls_alone p g ∅ sni [] [] g' t Hd) as (n & s & He & Ha);
    try done.
  by exists n, s.
Qed.

End Solo.

(** ** Interleavings *)

Section Runs.

Variable PublicSuffix : string -> string.
Variable Fqdn : string -> string.
Variable IPString : dns.IP -> string.

Abbreviation step' := (step PublicSuffix Fqdn IPString).
Abbreviation perform' := (perform PublicSuffix Fqdn IPString).
Abbreviation exec' := (exec PublicSuffix Fqdn IPString).
Abbreviation kind' := (kind Fqdn IPString).
Abbreviation kindly' := (kindly PublicSuffix Fqdn IPString).

Ltac step_cases H :=
  unfold step, goto, afterHandshake in H;
  repeat match type of H with
         | context [match ?x with _ => _ end] => destruct x eqn:?
         end;
  simplify_eq/=.

(** A property that holds at the start and that every step keeps holds
    after every run. *)
Lemma exec_keeps (P : System -> Prop) :
  (forall s a s', P s -> perform' s a = Some s' -> P s') ->
  forall acts s s', P s -> exec' acts s = Some s' -> P s'.
Proof.
  intros Hstep acts. induction acts as [|a rest IH]; intros s s' HP; simpl.
  - by intros [= <-].
  - destruct (perform' s a) as [s1|] eqn:E; [|done].
    apply IH. by apply (Hstep s a).
Qed.

Lemma exec_keeps_kindly (P : System -> Prop) :
  (forall s a s',
     P s -> kind' s a = true -> perform' s a = Some s' -> P s') ->
  forall acts s s',
    P s -> kindly' acts s = true -> exec' acts s = Some s' -> P s'.
Proof.
  intros Hstep acts. induction acts as [|a rest IH]; intros s s' HP; simpl.
  - by intros _ [= <-].
  - destruct (perform' s a) as [s1|] eqn:E; [|done].
    intros Hk. apply andb_true_iff in Hk as [Hk Hr].
    apply IH; [|done]. by apply (Hstep s a).
Qed.

(** What a step does to the goroutines and the mutexes. *)
Lemma step_held s i o s' :
  step' s i o = Some s' ->
  exists c pc',
    conns s !! i = Some c
    /\ conns s' = <[i := mkConn (connHost c) pc']> (conns s)
    /\ ((inSection pc' = inSection (connPc c) /\ held s' = held s)
        \/ (inSection (connPc c) = false /\ (connHost c ∉ held s)
            /\ held s' = {[connHost c]} ∪ held s)
        \/ (inSection (connPc c) = true /\ inSection pc' = false
            /\ held s' = held s ∖ {[connHost c]})).
Proof.
  intros H. step_cases H;
    (eexists c, _; split; [reflexivity|]; split; [reflexivity|]);
    match goal with Hpc : connPc _ = _ |- _ => rewrite Hpc end; simpl;
    try (left; split; reflexivity).
  - right. left. split; [done|]. split; [|done].
    match goal with Hb : bool_decide _ = false |- _ =>
      by apply bool_decide_eq_false in Hb end.
  - right. right. done.
  - right. right. done.
Qed.

Lemma exclusive_step s a s' :
  exclusive s -> perform' s a = Some s' -> exclusive s'.
Proof.
  intros [Hh Hu] Hp. destruct a as [sni | i o]; simpl in Hp.
  - injection Hp as <-. split; simpl.
    + intros i c Hi Hs. apply lookup_app_Some in Hi as [Hi | [_ Hi]];
        [by eauto|].
      apply list_lookup_singleton_Some in Hi as [_ <-]. done.
    + intros i j ci cj Hi Hj Hsi Hsj.
      apply lookup_app_Some in Hi as [Hi | [_ Hi]];
        [|apply list_lookup_singleton_Some in Hi as [_ <-]; done].
      apply lookup_app_Some in Hj as [Hj | [_ Hj]];
        [|apply list_lookup_singleton_Some in Hj as [_ <-]; done].
      by eauto.
  - destruct (step_held s i o s' Hp) as (c & pc' & Hc & Hcs & Hcase).
    pose proof (lookup_lt_Some _ _ _ Hc) as Hlt. unfold exclusive.
    rewrite Hcs. clear Hcs.
    assert (Hlook : forall j cj,
              <[i := mkConn (connHost c) pc']> (conns s) !! j = Some cj ->
              (j = i /\ cj = mkConn (connHost c) pc')
              \/ (j <> i /\ conns s !! j = Some cj)).
    { intros j cj. destruct (decide (j = i)) as [-> | Hne].
      - rewrite list_lookup_insert_eq by done. intros [= <-]. by left.
      - rewrite list_lookup_insert_ne by done. by right. }
    split.
    + intros j cj Hj Hs. apply Hlook in Hj as [[-> ->] | [Hne Hj]]; simpl in *.
      * destruct Hcase as [[E ->] | [(_ & _ & ->) | (_ & E & _)]].
        -- rewrite E in Hs. by eauto.
        -- set_solver.
        -- congruence.
      * pose proof (Hh j cj Hj Hs) as Hin.
        destruct Hcase as [[_ ->] | [(_ & _ & ->) | (E & _ & ->)]];
          [done | set_solver |].
        apply elem_of_difference. split; [done|].
        intros Heq%elem_of_singleton. apply Hne.
        by apply (Hu j i cj c).
    + intros j k cj ck Hj Hk Hsj Hsk Hhost.
      apply Hlook in Hj as [[-> ->] | [Hnj Hj]];
        apply Hlook in Hk as [[-> ->] | [Hnk Hk]]; simpl in *; try done.
      * destruct Hcase as [[E _] | [(_ & Hn & _) | (_ & E & _)]].
        -- rewrite E in Hsj. by eapply Hu.
        -- exfalso. apply Hn. rewrite Hhost. by eauto.
        -- congruence.
      * destruct Hcase as [[E _] | [(_ & Hn & _) | (_ & E & _)]].
        -- rewrite E in Hsk. by eapply Hu.
        -- exfalso. apply Hn. rewrite <- Hhost. by eauto.
        -- congruence.
      * by eapply Hu.
Qed.

Lemma exclusive_cold policy : exclusive (cold policy).
Proof. split; simpl; intros *; by rewrite lookup_nil. Qed.

End Runs.

Section Counting.

Variable PublicSuffix : string -> string.
Variable Fqdn : string -> string.
Variable IPString : dns.IP -> string.

Abbreviation step' := (step PublicSuffix Fqdn IPString).
Abbreviation perform' := (perform PublicSuffix Fqdn IPString).
Abbreviation exec' := (exec PublicSuffix Fqdn IPString).
Abbreviation kind' := (kind Fqdn IPString).
Abbreviation kindly' := (kindly PublicSuffix Fqdn IPString).

Ltac step_cases H :=
  unfold step, goto, afterHandshake in H;
  repeat match type of H with
         | context [match ?x with _ => _ end] => destruct x eqn:?
         end;
  simplify_eq/=.

(** *** Leaves made *)

Lemma sum_insert (f : Conn -> nat) l i c c' :
  l !! i = Some c ->
  (sum_list_with f (<[i := c']> l) + f c = sum_list_with f l + f c')%nat.
Proof.
  revert i. induction l as [|x l IH]; intros [|i] H; simpl in *; try done.
  - injection H as ->. lia.
  - specialize (IH i H). lia.
Qed.

Lemma sum_bound (f : Conn -> nat) l :
  (forall c, f c <= 1)%nat -> (sum_list_with f l <= length l)%nat.
Proof.
  intros Hf. induction l as [|x l IH]; simpl; [lia|].
  specialize (Hf x). lia.
Qed.

Lemma step_minted s i o s' :
  step' s i o = Some s' ->
  exists c pc',
    conns s !! i = Some c
    /\ conns s' = <[i := mkConn (connHost c) pc']> (conns s)
    /\ (length (minted s') + pastLookup (connPc c)
        <= length (minted s) + pastLookup pc')%nat.
Proof.
  intros H. step_cases H;
    (eexists c, _; split; [reflexivity|]; split; [reflexivity|]);
    match goal with Hpc : connPc _ = _ |- _ => rewrite Hpc end; simpl; lia.
Qed.

Lemma minted_step s a s' :
  (length (minted s) <= made s)%nat -> perform' s a = Some s' ->
  (length (minted s') <= made s')%nat.
Proof.
  intros Hm Hp. destruct a as [sni | i o]; simpl in Hp.
  - injection Hp as <-. unfold made in *. simpl.
    rewrite sum_list_with_app. simpl. lia.
  - destruct (step_minted s i o s' Hp) as (c & pc' & Hc & Hcs & Hle).
    unfold made in *. rewrite Hcs.
    pose proof (sum_insert (fun c => pastLookup (connPc c)) (conns s) i c
                  (mkConn (connHost c) pc') Hc) as Hs.
    simpl in Hs. lia.
Qed.

(** *** Resolutions *)

Lemma resolutions_cons s s' h host :
  resolved s' = h :: resolved s ->
  resolutions s' host
  = (if decide (h = host) then S (resolutions s host)
     else resolutions s host).
Proof.
  unfold resolutions. intros ->. rewrite filter_cons.
  by destruct (decide (h = host)).
Qed.

Lemma staged_split s i c host k :
  conns s !! i = Some c ->
  staged s host k <->
  (connHost c = host /\ stage (connPc c) = k) \/ others s i host k.
Proof.
  intros Hc. split.
  - intros (j & cj & Hj & Hh & Hk). destruct (decide (j = i)) as [-> | Hne].
    + left. by simplify_eq.
    + right. by exists j, cj.
  - intros [[Hh Hk] | (j & cj & _ & Hj & Hh & Hk)].
    + by exists i, c.
    + by exists j, cj.
Qed.

Lemma staged_moved s s' i c pc' host k :
  conns s !! i = Some c ->
  conns s' = <[i := mkConn (connHost c) pc']> (conns s) ->
  staged s' host k <->
  (connHost c = host /\ stage pc' = k) \/ others s i host k.
Proof.
  intros Hc Hcs. pose proof (lookup_lt_Some _ _ _ Hc) as Hlt.
  assert (Hi : conns s' !! i = Some (mkConn (connHost c) pc')).
  { rewrite Hcs. by apply list_lookup_insert_eq. }
  rewrite (staged_split s' i _ host k Hi). simpl.
  assert (Ho : others s' i host k <-> others s i host k).
  { unfold others. rewrite Hcs.
    split; intros (j & cj & Hne & Hj & H); exists j, cj;
      (split; [done|]); rewrite list_lookup_insert_ne in *; done. }
  by rewrite Ho.
Qed.

(** Under mutual exclusion, a goroutine in the critical section is the
    only one of its host there. *)
Lemma others_excluded s i c k :
  exclusive s -> conns s !! i = Some c -> inSection (connPc c) = true ->
  (k = 1 \/ k = 2 \/ k = 4)%nat -> ~ others s i (connHost c) k.
Proof.
  intros [_ Hu] Hc Hs Hk (j & cj & Hne & Hj & Hh & Hst).
  apply Hne. apply (Hu j i cj c); try done.
  destruct (connPc cj) as [| | | | | | |[|]|[|]| |]; simpl in *; try done; lia.
Qed.

(** What a step on which the network is kind does to the resolution of
    the goroutine's host. *)
Lemma step_kind s i o s' :
  step' s i o = Some s' -> kind' s (Go i o) = true ->
  exists c pc',
    conns s !! i = Some c
    /\ conns s' = <[i := mkConn (connHost c) pc']> (conns s)
    /\ ((cacheResolv (shared s') = cacheResolv (shared s)
         /\ resolved s' = resolved s
         /\ ((stage (connPc c) = 0 /\ stage pc' = 0)%nat
             \/ (inSection (connPc c) = true /\ stage (connPc c) = 0%nat
                 /\ cacheResolv (shared s) !! connHost c = None
                 /\ stage pc' = 1%nat)
             \/ (stage (connPc c) = 0%nat
                 /\ is_Some (cacheResolv (shared s) !! connHost c)
                 /\ stage pc' = 3%nat)
             \/ (stage (connPc c) = 3 /\ (stage pc' = 3 \/ stage pc' = 0))%nat
             \/ stage (connPc c) = 4%nat))
        \/ (inSection (connPc c) = true
            /\ stage (connPc c) = 1%nat /\ stage pc' = 2%nat
            /\ cacheResolv (shared s') = cacheResolv (shared s)
            /\ resolved s' = connHost c :: resolved s)
        \/ (inSection (connPc c) = true
            /\ stage (connPc c) = 2%nat /\ stage pc' = 3%nat
            /\ (exists a, cacheResolv (shared s')
                          = <[connHost c := a]> (cacheResolv (shared s)))
            /\ resolved s' = resolved s)).
Proof.
  intros H Hk. unfold step, goto, afterHandshake in H. unfold kind in Hk.
  destruct (conns s !! i) as [c|] eqn:Hc; [|done].
  exists c. destruct (connPc c) eqn:Hpc; cbv beta iota zeta in H, Hk.
  all: repeat match type of H with
              | context [match ?x with _ => _ end] => destruct x eqn:?
              end.
  all: try discriminate H.
  all: injection H as <-.
  all: eexists; (split; [reflexivity|]); (split; [reflexivity|]).
  all: cbn [shared resolved cacheResolv stage inSection].
  all: try (left; split; [reflexivity|]; split; [reflexivity|];
            first [ by (left; split; reflexivity)
                  | by (right; left; do 3 (split; [reflexivity|]);
                        reflexivity)
                  | by (right; left; do 2 (split; [reflexivity|]);
                        split; [assumption | reflexivity])
                  | by (right; right; left; split; [reflexivity|];
                        split; [by eexists | reflexivity])
                  | by (right; right; right; left; split;
                        [reflexivity | by auto])
                  | by (right; right; right; right; reflexivity) ]).
  all: try (right; left; do 4 (split; [reflexivity|]); reflexivity).
  all: try (right; right; do 3 (split; [reflexivity|]);
            split; [by eexists | reflexivity]).
  all: try discriminate Hk.
Qed.

Lemma resolved_once_step s a s' host :
  exclusive s -> resolved_once s host -> kind' s a = true ->
  perform' s a = Some s' -> resolved_once s' host.
Proof.
  intros Hex [Hbad Hst] Hk Hp. destruct a as [sni | i o]; simpl in Hp.
  - injection Hp as <-.
    assert (Hsame : forall k, k <> 0%nat ->
              staged (mkSystem (shared s) (held s)
                        (conns s ++ [mkConn sni AtHandshake])
                        (minted s) (resolved s)) host k
              <-> staged s host k).
    { intros k Hk0. unfold staged. simpl. split.
      - intros (j & cj & Hj & Hh & Hs).
        apply lookup_app_Some in Hj as [Hj | [_ Hj]]; [by eauto|].
        apply list_lookup_singleton_Some in Hj as [_ <-]. simpl in Hs. lia.
      - intros (j & cj & Hj & Hh & Hs). exists j, cj.
        split; [|done]. apply lookup_app_Some. by left. }
    unfold resolved_once, resolutions in *. simpl.
    destruct (cacheResolv (shared s) !! host); rewrite !Hsame by lia; done.
  - destruct (step_kind s i o s' Hp Hk) as (c & pc' & Hc & Hcs & Hcase).
    pose proof (staged_split s i c host) as Hb.
    pose proof (staged_moved s s' i c pc' host) as Ha.
    specialize (fun k => Hb k Hc). specialize (fun k => Ha k Hc Hcs).
    destruct (decide (connHost c = host)) as [Hh | Hh].
    + (* the goroutine that moves is one of [host] *)
      pose proof (others_excluded s i c 1%nat Hex Hc) as Hx1.
      pose proof (others_excluded s i c 2%nat Hex Hc) as Hx2.
      rewrite Hh in Hx1, Hx2.
      pose proof (Hb 1%nat) as Hb1. pose proof (Hb 2%nat) as Hb2.
      pose proof (Hb 3%nat) as Hb3. pose proof (Hb 4%nat) as Hb4.
      pose proof (Ha 1%nat) as Ha1. pose proof (Ha 2%nat) as Ha2.
      pose proof (Ha 3%nat) as Ha3. pose proof (Ha 4%nat) as Ha4.
      clear Ha Hb. unfold resolved_once.
      destruct Hcase as
        [(Ecache & Eres & Hq) | [(Hs & H1 & H2 & Ecache & Eres)
                                | (Hs & H1 & H2 & [r Ecache] & Eres)]].
      * assert (Er : resolutions s' host = resolutions s host)
          by (unfold resolutions; by rewrite Eres).
        rewrite Ecache, Er. rewrite Hh in Hq.
        destruct Hq as [(Hq0 & Hq1) | [(Hs & Hq0 & Hn & Hq1)
                       | [(Hq0 & [r Hn] & Hq1) | [(Hq0 & Hq1) | Hq0]]]].
        -- rewrite Hq0 in *. rewrite Hq1 in *.
           destruct (cacheResolv (shared s) !! host);
             intuition (try lia).
        -- rewrite Hq0 in *. rewrite Hq1 in *. rewrite Hn in *.
           specialize (Hx1 Hs ltac:(lia)). specialize (Hx2 Hs ltac:(lia)).
           intuition (try lia).
        -- rewrite Hq0 in *. rewrite Hq1 in *. rewrite Hn in *.
           intuition (try lia).
        -- rewrite Hq0 in *.
           destruct (cacheResolv (shared s) !! host);
             destruct Hq1 as [Hq1 | Hq1]; rewrite Hq1 in *;
             intuition (try lia).
        -- rewrite Hq0 in *. intuition (try lia).
      * rewrite (resolutions_cons s s' (connHost c) host Eres).
        rewrite Hh, decide_True by done.
        rewrite Ecache. rewrite H1 in *. rewrite H2 in *.
        specialize (Hx1 Hs ltac:(lia)). specialize (Hx2 Hs ltac:(lia)).
        destruct (cacheResolv (shared s) !! host);
          intuition (try lia).
      * assert (Er : resolutions s' host = resolutions s host)
          by (unfold resolutions; by rewrite Eres).
        rewrite Ecache, Hh, lookup_insert_eq, Er.
        rewrite H1 in *. rewrite H2 in *.
        specialize (Hx1 Hs ltac:(lia)). specialize (Hx2 Hs ltac:(lia)).
        destruct (cacheResolv (shared s) !! host);
          intuition (try lia).
    + (* a goroutine of another host moves *)
      assert (Est : forall k, staged s' host k <-> staged s host k).
      { intros k. rewrite Ha, Hb.
        split; (intros [[E _] | Ho]; [done | by right]). }
      assert (Er : resolutions s' host = resolutions s host).
      { destruct Hcase as [(_ & Eres & _) | [(_ & _ & _ & _ & Eres)
                                           | (_ & _ & _ & _ & Eres)]].
        - unfold resolutions. by rewrite Eres.
        - rewrite (resolutions_cons s s' (connHost c) host Eres).
          by rewrite decide_False.
        - unfold resolutions. by rewrite Eres. }
      assert (Ec : cacheResolv (shared s') !! host
                   = cacheResolv (shared s) !! host).
      { destruct Hcase as [(E & _) | [(_ & _ & _ & E & _)
                                     | (_ & _ & _ & [r E] & _)]];
          rewrite E; [done | done |]. by apply lookup_insert_ne. }
      unfold resolved_once. rewrite Ec, Er.
      destruct (cacheResolv (shared s) !! host); rewrite !Est; done.
Qed.

Lemma resolved_once_cold policy host : resolved_once (cold policy) host.
Proof.
  assert (H : forall k, ~ staged (cold policy) host k).
  { intros k (i & c & Hi & _). simpl in Hi. by rewrite lookup_nil in Hi. }
  split; [apply H|]. simpl. rewrite lookup_empty.
  split; [apply H|]. left. split; [done | apply H].
Qed.

(** C3, as the code has it.  After every interleaving of any number of
    connections, started with cold caches: no two goroutines of one host
    are between [lock.Lock()] and [lock.Unlock()] together, so at most
    one of them is about to resolve or resolving; and the leaves made are
    bounded by the connections accepted (the certificate path takes no
    lock, and the bound is not one per name).  When every cache entry
    that is found is fresh and dials, every resolution returns an address
    and every address tried dials, each hostname has been resolved at most
    once, and exactly once as soon as a goroutine of that host is
    connected. *)
Theorem concurrent_connections (policy : gset string) (acts : list Action)
    (s : System) :
  exec' acts (cold policy) = Some s ->
  exclusive s
  /\ (forall i j ci cj,
        conns s !! i = Some ci -> conns s !! j = Some cj ->
        connPc ci = AtResolve -> connPc cj = AtResolve ->
        connHost ci = connHost cj -> i = j)
  /\ (length (minted s) <= length (conns s))%nat
  /\ (kindly' acts (cold policy) = true ->
      forall host,
        (resolutions s host <= 1)%nat
        /\ forall i c, conns s !! i = Some c -> connHost c = host ->
                       connected (connPc c) = true ->
                       resolutions s host = 1%nat).
Proof.
  intros Hrun.
  assert (Hex : exclusive s).
  { apply (exec_keeps PublicSuffix Fqdn IPString exclusive
             (exclusive_step PublicSuffix Fqdn IPString)
             acts (cold policy) s); [apply exclusive_cold | done]. }
  split; [done|]. split; [|split].
  - intros i j ci cj Hi Hj Hpi Hpj Hh. destruct Hex as [_ Hu].
    apply (Hu i j ci cj); try done; [by rewrite Hpi | by rewrite Hpj].
  - assert (Hm : (length (minted s) <= made s)%nat).
    { apply (exec_keeps PublicSuffix Fqdn IPString
               (fun s => (length (minted s) <= made s)%nat)
               minted_step acts (cold policy) s); [|done].
      simpl. lia. }
    etrans; [exact Hm|]. apply sum_bound.
    intros c. destruct (connPc c); simpl; lia.
  - intros Hkind host.
    assert (Hinv : exclusive s /\ forall h, resolved_once s h).
    { apply (exec_keeps_kindly PublicSuffix Fqdn IPString
               (fun s => exclusive s /\ forall h, resolved_once s h))
        with (acts := acts) (s := cold policy); try done.
      - intros s0 a s1 [Hex0 Hr] Hk Hp. split.
        + by apply (exclusive_step PublicSuffix Fqdn IPString s0 a).
        + intros h. by apply (resolved_once_step s0 a).
      - split; [apply exclusive_cold|].
        intros h. apply resolved_once_cold. }
    destruct Hinv as [_ Hr]. destruct (Hr host) as [Hbad Hst].
    destruct (cacheResolv (shared s) !! host).
    + destruct Hst as (-> & _). split; [lia | done].
    + destruct Hst as (H3 & Hn). split; [destruct Hn as [[-> _] | [-> _]]; lia|].
      intros i c Hc Hh Hconn. exfalso. apply H3. exists i, c.
      split; [done|]. split; [done|].
      destruct (connPc c) as [| | | | | | | |[|]| |]; done.
Qed.

End Counting.

Lemma concurrent_connections_witness :
  exists s,
    exec publicsuffix.sampleSuffix sample.Fqdn sample.IPString sample.race
      (cold {["example.com"]}) = Some s
    /\ exclusive s
    /\ (forall i j ci cj,
          conns s !! i = Some ci -> conns s !! j = Some cj ->
          connPc ci = AtResolve -> connPc cj = AtResolve ->
          connHost ci = connHost cj -> i = j)
    /\ (length (minted s) <= length (conns s))%nat
    /\ forall host,
         (resolutions s host <= 1)%nat
         /\ forall i c, conns s !! i = Some c -> connHost c = host ->
                        connected (connPc c) = true ->
                        resolutions s host = 1%nat.
Proof.
  destruct (exec publicsuffix.sampleSuffix sample.Fqdn sample.IPString
              sample.race (cold {["example.com"]})) as [s|] eqn:E.
  - exists s. split; [reflexivity|].
    destruct (concurrent_connections publicsuffix.sampleSuffix sample.Fqdn
                sample.IPString {["example.com"]} sample.race s E)
      as (H1 & H2 & H3 & H4).
    split; [exact H1|]. split; [exact H2|]. split; [exact H3|].
    apply H4. vm_compute. reflexivity.
  - vm_compute in E. discriminate E.
Defined.

(** Two connections to [www.example.com] from cold caches, their
    handshakes interleaved: both miss the certificate cache and each makes
    a leaf for [example.com]; the host is resolved once and both
    connections end up relaying. *)
Lemma two_handshakes_two_leaves :
  match exec publicsuffix.sampleSuffix sample.Fqdn sample.IPString sample.race
          (cold {["example.com"]}) with
  | Some s =>
      minted s = ["example.com"; "example.com"]
      /\ resolved s = ["www.example.com"]
      /\ conns s = [mkConn "www.example.com" AtSplice;
                    mkConn "www.example.com" AtSplice]
  | None => False
  end.
Proof. vm_compute. repeat split. Qed.

(** ** More on the matcher *)

Section MatcherMore.

Variable PublicSuffix : string -> string.

Abbreviation eTLD1 := (publicsuffix.EffectiveTLDPlusOne PublicSuffix).
Abbreviation matcher := (needsProxy PublicSuffix).

(** The matcher returns on every name, and says true exactly when the name
    is an entry or a form of the walk down to the library's base is. *)
Lemma needsProxy_answer proxyAddr h :
  exists b, matcher proxyAddr h = Done b
    /\ (b = true <->
        h ∈ proxyAddr
        \/ exists base s, eTLD1 h = Done (Some base)
                          /\ walk_form h base s /\ s ∈ proxyAddr).
Proof.
  unfold needsProxy.
  destruct (EffectiveTLDPlusOne_returns PublicSuffix h) as (r & Hr & Hs).
  rewrite Hr. cbn [run_bind].
  destruct (bool_decide (h ∈ proxyAddr)) eqn:Ein.
  { apply bool_decide_eq_true in Ein. exists true. split; [done|].
    split; [by left | done]. }
  apply bool_decide_eq_false in Ein. destruct r as [base|].
  2:{ exists false. split; [done|]. split; [done|].
      intros [H | (base & s & H & _)]; done. }
  destruct (Hs base eq_refl) as (p & Eh & Hp).
  destruct (needsProxy_loop_spec proxyAddr (S (String.length h)) p base Hp)
    as (b & Hb & Hiff).
  { rewrite Eh, sapp_length. lia. }
  rewrite <- Eh in Hb. exists b. split; [done|]. rewrite Hiff. split.
  - intros (p1 & p2 & Ep & Hne & Hl1 & Hin). right.
    exists base, (p2 +:+ base). split; [done|]. split; [|done]. split.
    + exists p1. by rewrite Eh, Ep, sapp_assoc.
    + exists p2. split; [done|]. rewrite Ep in Hp. by apply labels_tail in Hp.
  - intros [H | (base' & s & He' & [(q & Eq & Hq) (q2 & Eq2 & Hq2)] & Hin)];
      [done|].
    injection He' as <-. exists q, q2. split.
    { apply (sapp_inv_tail _ _ base). by rewrite <- Eh, sapp_assoc, <- Eq2. }
    split; [|by rewrite <- Eq2].
    intros ->. rewrite sapp_nil in Eq. by subst.
Qed.

(** X1.  The matcher is monotone in the policy set: a name matched under
    a set is matched under every larger set. *)
Theorem needsProxy_monotone (policy policy' : gset string) (h : string) :
  policy ⊆ policy' ->
  needsProxy PublicSuffix policy h = Done true ->
  needsProxy PublicSuffix policy' h = Done true.
Proof.
  intros Hsub Hm.
  destruct (needsProxy_answer policy h) as (b & Hb & Hiff).
  destruct (needsProxy_answer policy' h) as (b' & Hb' & Hiff').
  rewrite Hb in Hm. injection Hm as ->. rewrite Hb'. f_equal.
  apply Hiff'. destruct (proj1 Hiff eq_refl) as [H | (base & s & He & Hw & H)].
  - left. by apply Hsub.
  - right. exists base, s. split; [done|]. split; [done|]. by apply Hsub.
Qed.

(** X2.  A match is always owed to an entry that is the name with whole
    leading labels removed, never to a part of a label; and unless that
    entry is the name itself, the name has an eTLD+1 and the entry is not
    shorter than it: no entry reaches across the public-suffix boundary. *)
Theorem needsProxy_whole_labels (policy : gset string) (h : string) :
  matcher policy h = Done true ->
  exists s, s ∈ policy /\ strips_to h s
    /\ (s = h
        \/ exists base, eTLD1 h = Done (Some base) /\ strips_to s base
                        /\ (String.length base <= String.length s)%nat).
Proof.
  intros Hm. destruct (needsProxy_answer policy h) as (b & Hb & Hiff).
  rewrite Hb in Hm. injection Hm as ->.
  destruct (proj1 Hiff eq_refl) as [H | (base & s & He & [Hhs Hsb] & H)].
  - exists h. split; [done|]. split; [by exists ""|]. by left.
  - exists s. split; [done|]. split; [done|]. right. exists base.
    split; [done|]. split; [done|].
    destruct Hsb as (q & -> & _). rewrite sapp_length. lia.
Qed.

End MatcherMore.

Lemma needsProxy_monotone_witness :
  needsProxy publicsuffix.sampleSuffix {["example.com"; "example.net"]}
    "www.example.com" = Done true.
Proof.
  apply (needsProxy_monotone publicsuffix.sampleSuffix {["example.com"]}
           {["example.com"; "example.net"]} "www.example.com").
  - intros x Hx. apply elem_of_union. by left.
  - vm_compute. reflexivity.
Defined.

Lemma needsProxy_whole_labels_witness :
  exists s, s ∈ ({["example.com"]} : gset string)
    /\ strips_to "www.example.com" s
    /\ (s = "www.example.com"
        \/ exists base,
             publicsuffix.EffectiveTLDPlusOne publicsuffix.sampleSuffix
               "www.example.com" = Done (Some base)
             /\ strips_to s base
             /\ (String.length base <= String.length s)%nat).
Proof.
  apply (needsProxy_whole_labels publicsuffix.sampleSuffix {["example.com"]}
           "www.example.com").
  vm_compute. reflexivity.
Defined.

(** ** More on the DNS handler *)

Section ResponderMore.

Variable PublicSuffix : string -> string.
Variable proxyAddr : gset string.
Variable exchange : dns.Exchanger.

Abbreviation handler := (forwardDns PublicSuffix proxyAddr exchange).

Lemma slice_to_last s :
  slice_to s (len s - 1) = None <-> s = "".
Proof.
  unfold slice_to. split.
  - destruct s as [|a s]; [done|]. intros H. exfalso.
    assert (Hl : len (String a s) = len s + 1) by (unfold len; simpl; lia).
    pose proof (len_nonneg s) as Hn. rewrite Hl in H.
    destruct (0 <=? len s + 1 - 1) eqn:E1; [|apply Z.leb_gt in E1; lia].
    destruct (len s + 1 - 1 <=? len s + 1) eqn:E2;
      [|apply Z.leb_gt in E2; lia].
    discriminate H.
  - intros ->. reflexivity.
Qed.

(** X3.  What becomes of a request is decided by its question section
    alone: more than one question ends the process; no question, or one
    A or AAAA question with an empty name, is a run-time panic; every
    other request is handled and the handler returns. *)
Theorem forwardDns_outcome (m : dns.Msg) :
  (handler m = Fatal <-> (1 < length (dns.Questions m))%nat)
  /\ (handler m = Panic <->
      dns.Questions m = []
      \/ exists q, dns.Questions m = [q]
           /\ (dns.Qtype q = dns.TypeA \/ dns.Qtype q = dns.TypeAAAA)
           /\ dns.Name q = "")
  /\ ((exists r, handler m = Done r) <->
      exists q, dns.Questions m = [q]
        /\ ((dns.Qtype q <> dns.TypeA /\ dns.Qtype q <> dns.TypeAAAA)
            \/ dns.Name q <> "")).
Proof.
  unfold forwardDns.
  destruct (dns.Questions m) as [|q [|q' rest]] eqn:Hq.
  - cbn. split; [split; [done | lia]|].
    split; [split; [by left | done]|].
    split; [by intros [r H] | by intros (q & H & _)].
  - cbn [length Z.of_nat Z.ltb Z.compare run_bind checked lookup list_lookup
         Pos.of_succ_nat].
    destruct ((dns.Qtype q =? dns.TypeA) || (dns.Qtype q =? dns.TypeAAAA))
      eqn:Et.
    + assert (Ht : dns.Qtype q = dns.TypeA \/ dns.Qtype q = dns.TypeAAAA).
      { apply orb_true_iff in Et as [E | E]; apply Z.eqb_eq in E; auto. }
      destruct (slice_to (dns.Name q) (len (dns.Name q) - 1)) as [name|] eqn:Es.
      * assert (Hne : dns.Name q <> "").
        { intros E. apply slice_to_last in E. congruence. }
        cbn [checked run_bind].
        destruct (needsProxy_answer PublicSuffix proxyAddr name)
          as (b & -> & _).
        cbn [run_bind].
        destruct b;
          (split; [split; [done | simpl; lia]|];
           split;
           [split; [done|];
            intros [H | (q0 & [= <-] & _ & H)]; done|];
           split; [|by eauto]; intros _; exists q; split; [done|]; by right).
      * apply slice_to_last in Es. cbn [checked run_bind].
        split; [split; [done | simpl; lia]|].
        split.
        { split; [|done]. intros _. right. by exists q. }
        split; [by intros [r H]|].
        intros (q0 & [= <-] & [[H1 H2] | H]); [|done].
        destruct Ht; done.
    + apply orb_false_iff in Et as [E1 E2].
      apply Z.eqb_neq in E1, E2.
      split; [split; [done | simpl; lia]|].
      split.
      { split; [done|]. intros [H | (q0 & [= <-] & [H | H] & _)]; done. }
      split; [|by eauto]. intros _. exists q. split; [done|]. by left.
  - destruct (1 <? Z.of_nat (length (q :: q' :: rest))) eqn:E;
      [|apply Z.ltb_ge in E; simpl length in E; lia].
    cbn [run_bind].
    split; [split; [intros _; simpl; lia | done]|].
    split.
    { split; [done|]. intros [H | (q0 & H & _)]; done. }
    split; [by intros [r H] | by intros (q0 & H & _)].
Qed.

(** X4.  A request with one question that is not of type A or AAAA, or
    whose name (without its last byte) the matcher rejects, goes to the
    cleartext upstream [defDNS] as it came, over the UDP client; the
    upstream's reply is written to the client unchanged, and when the
    exchange fails nothing is written. *)
Theorem forwardDns_forwards (m : dns.Msg) (q : dns.Question) :
  dns.Questions m = [q] ->
  (dns.Qtype q <> dns.TypeA /\ dns.Qtype q <> dns.TypeAAAA)
  \/ (exists name c,
        dns.Name q = name +:+ String c ""
        /\ needsProxy PublicSuffix proxyAddr name = Done false) ->
  handler m = Done (forwarded exchange m).
Proof.
  intros Hq Hcase. unfold forwardDns, forwarded. rewrite Hq.
  cbn [length Z.of_nat Z.ltb Z.compare run_bind checked lookup list_lookup
       Pos.of_succ_nat].
  destruct ((dns.Qtype q =? dns.TypeA) || (dns.Qtype q =? dns.TypeAAAA))
    eqn:Et; [|done].
  destruct Hcase as [[H1 H2] | (name & c & Hn & Hp)].
  - apply orb_true_iff in Et as [E | E]; apply Z.eqb_eq in E; done.
  - rewrite Hn, slice_to_trailing. cbn [checked run_bind].
    by rewrite Hp.
Qed.

End ResponderMore.

Lemma forwardDns_forwards_witness :
  forwardDns publicsuffix.sampleSuffix {["example.com"]} sample.exchangeV6Only
    (query sample.Fqdn "otherdomain.net" dns.TypeA)
  = Done (forwarded sample.exchangeV6Only
            (query sample.Fqdn "otherdomain.net" dns.TypeA)).
Proof.
  apply (forwardDns_forwards publicsuffix.sampleSuffix {["example.com"]}
           sample.exchangeV6Only
           (query sample.Fqdn "otherdomain.net" dns.TypeA)
           (dns.mkQuestion "otherdomain.net." dns.TypeA dns.ClassINET)).
  - reflexivity.
  - right. exists "otherdomain.net", "."%char.
    split; [reflexivity | vm_compute; reflexivity].
Defined.

(** ** More on the resolver and the dial loop *)

Section ResolverMore.

Variable Fqdn : string -> string.
Variable IPString : dns.IP -> string.
Variable exchange : dns.Exchanger.
Variable clock : nat -> Z.

Abbreviation resolve := (resolveRealIP Fqdn IPString exchange clock).
Abbreviation ask := (query Fqdn).
Abbreviation stamped := (targets IPString clock).

Lemma targets_lookup k0 ips k r :
  stamped k0 ips !! k = Some r ->
  exists ip, ips !! k = Some ip /\ r = target IPString ip (clock (k0 + k)).
Proof.
  revert k0 k. induction ips as [|ip rest IH]; intros k0 [|k]; simpl;
    try done.
  - intros [= <-]. exists ip. by rewrite Nat.add_0_r.
  - intros H. destruct (IH (S k0) k H) as (ip' & Hl & ->).
    exists ip'. split; [done|]. f_equal. f_equal. lia.
Qed.

Lemma aaaa_of_elem ip answers :
  ip ∈ aaaa_of answers -> exists h, dns.AAAA h ip ∈ answers.
Proof.
  unfold aaaa_of. intros (rr & Hin & Hrr)%list_elem_of_omap.
  destruct rr; simplify_eq. by eexists.
Qed.

Lemma a_of_elem ip answers :
  ip ∈ a_of answers -> exists h, dns.A h ip ∈ answers.
Proof.
  unfold a_of. intros (rr & Hin & Hrr)%list_elem_of_omap.
  destruct rr; simplify_eq. by eexists.
Qed.

(** X5.  Every dial target the resolver returns is port 443 of an address
    that an AAAA record of the first reply or an A record of the second
    reply carries, and the [k]-th target expires five minutes after the
    [k]-th reading of the clock; records of another type yield nothing. *)
Theorem resolveRealIP_targets (host : string) :
  exists ret t,
    resolve host = Done (ret, t)
    /\ forall k r, ret !! k = Some r ->
         expire r = clock k + 5 * minute
         /\ exists ip,
              addr r = net.JoinHostPort (IPString ip) "443"
              /\ ((exists r6 h,
                     exchange gfwDnsCli (ask host dns.TypeAAAA) gfwDNS = Some r6
                     /\ dns.AAAA h ip ∈ dns.Answer r6)
                  \/ (exists r4 h,
                        exchange gfwDnsCli (ask host dns.TypeA) gfwDNS = Some r4
                        /\ dns.A h ip ∈ dns.Answer r4)).
Proof.
  unfold resolveRealIP. fold (ask host dns.TypeAAAA).
  destruct (exchange gfwDnsCli (ask host dns.TypeAAAA) gfwDNS) as [r6|] eqn:E6.
  2:{ do 2 eexists. split; [done|]. intros k r H. by rewrite lookup_nil in H. }
  cbn [query dns.setQtype0 dns.Questions checked run_bind dns.Name dns.Qclass
       dns.Hdr dns.Answer dns.Ns dns.Extra].
  fold (ask host dns.TypeA). rewrite appendAAAA_targets. cbn [app length].
  assert (H6 : forall k r,
             stamped 0 (aaaa_of (dns.Answer r6)) !! k = Some r ->
             expire r = clock k + 5 * minute
             /\ exists ip,
                  addr r = net.JoinHostPort (IPString ip) "443"
                  /\ exists h, dns.AAAA h ip ∈ dns.Answer r6).
  { intros k r H. destruct (targets_lookup _ _ _ _ H) as (ip & Hl & ->).
    split; [done|]. exists ip. split; [done|].
    apply aaaa_of_elem. by eapply list_elem_of_lookup_2. }
  destruct (exchange gfwDnsCli (ask host dns.TypeA) gfwDNS) as [r4|] eqn:E4.
  - do 2 eexists. split; [done|]. intros k r.
    rewrite appendA_targets, length_targets.
    intros [H | [Hge H]]%lookup_app_Some.
    + destruct (H6 k r H) as (He & ip & Ha & h & Hin).
      split; [done|]. exists ip. split; [done|]. left. by exists r6, h.
    + rewrite length_targets in Hge, H.
      destruct (targets_lookup _ _ _ _ H) as (ip & Hl & ->).
      split.
      { simpl. f_equal. f_equal. lia. }
      exists ip. split; [done|]. right. exists r4.
      destruct (a_of_elem ip (dns.Answer r4)) as [h Hh];
        [by eapply list_elem_of_lookup_2 | by exists h].
  - do 2 eexists. split; [done|]. intros k r H.
    destruct (H6 k r H) as (He & ip & Ha & h & Hin).
    split; [done|]. exists ip. split; [done|]. left. by exists r6, h.
Qed.

End ResolverMore.

(** X6.  The dial loop tries the addresses in the order given, stops at
    the first one that connects and returns it; it returns none exactly
    when every address was tried and failed. *)
Theorem dialEach_first (dialOk : nat -> string -> bool) (n : nat)
    (addrs : list Resolv) :
  match dialEach dialOk n addrs with
  | (Some a, t) =>
      exists before after,
        addrs = before ++ a :: after
        /\ (forall k b, before !! k = Some b ->
                        dialOk (n + k)%nat (addr b) = false)
        /\ dialOk (n + length before)%nat (addr a) = true
        /\ t = map (fun b => Dial (addr b)) (before ++ [a])
  | (None, t) =>
      (forall k b, addrs !! k = Some b -> dialOk (n + k)%nat (addr b) = false)
      /\ t = map (fun b => Dial (addr b)) addrs
  end.
Proof.
  revert n. induction addrs as [|a rest IH]; intros n; simpl.
  - split; [|done]. intros k b H. by rewrite lookup_nil in H.
  - destruct (dialOk n (addr a)) eqn:Ea.
    + exists [], rest. split; [done|]. split.
      { intros k b H. by rewrite lookup_nil in H. }
      split; [|done]. simpl. by rewrite Nat.add_0_r.
    + specialize (IH (S n)).
      destruct (dialEach dialOk (S n) rest) as [[found|] t].
      * destruct IH as (before & after & -> & Hf & Hok & ->).
        exists (a :: before), after. split; [done|]. split.
        { intros [|k] b; simpl.
          - intros [= <-]. by rewrite Nat.add_0_r.
          - intros H. specialize (Hf k b H).
            by replace (n + S k)%nat with (S n + k)%nat by lia. }
        split; [|done]. simpl.
        by replace (n + S (length before))%nat
          with (S n + length before)%nat by lia.
      * destruct IH as (Hf & ->). split; [|done].
        intros [|k] b; simpl.
        -- intros [= <-]. by rewrite Nat.add_0_r.
        -- intros H. specialize (Hf k b H).
           by replace (n + S k)%nat with (S n + k)%nat by lia.
Qed.

(** ** More on the certificate mint *)

Section MintMore.

Variable PublicSuffix : string -> string.

Abbreviation eTLD1 := (publicsuffix.EffectiveTLDPlusOne PublicSuffix).
Abbreviation mint := (getCertificate PublicSuffix).

(** The four ways a call can end. *)
Lemma getCertificate_cases env cache sni r cache' :
  mint env cache sni = Done (r, cache') ->
  (r = None /\ cache' = cache)
  \/ (exists c, r = Some c /\ cache' = cache /\ cache !! sni = Some c)
  \/ (exists base cn c,
        r = Some c /\ sni <> "" /\ cache !! sni = None
        /\ eTLD1 sni = Done (Some base) /\ cert_name sni base cn
        /\ ((cache' = cache /\ cache !! cn = Some c)
            \/ (cache' = <[cn := c]> cache /\ cache !! cn = None
                /\ mintLeaf env cn = Some c))).
Proof.
  unfold getCertificate.
  destruct (String.eqb sni "") eqn:Ee; [intros [= <- <-]; by left|].
  apply String.eqb_neq in Ee.
  destruct (cache !! sni) as [c|] eqn:Ehit.
  { intros [= <- <-]. right. left. by exists c. }
  destruct (eTLD1 sni) as [[base|]| | |] eqn:Et; try done; cbn [run_bind].
  2:{ intros [= <- <-]. by left. }
  destruct (cert_name_exists PublicSuffix sni base Et) as (cn & Hcn & _).
  rewrite (cert_name_computed _ _ _ Hcn). cbn [run_bind].
  destruct (cache !! cn) as [c|] eqn:Ehit2.
  { intros [= <- <-]. right. right. exists base, cn, c. by auto 10. }
  destruct (mintLeaf env cn) as [c|] eqn:Em.
  - intros [= <- <-]. right. right. exists base, cn, c.
    do 5 (split; [done|]). right. done.
  - intros [= <- <-]. by left.
Qed.

Lemma mintLeaf_names env cn c :
  mintLeaf env cn = Some c ->
  x509.CommonName (tls.Leaf c) = cn
  /\ x509.DNSNames (tls.Leaf c) = ["*." +:+ cn; cn].
Proof.
  unfold mintLeaf. destruct (GenerateKey env); [|done].
  destruct (randInt env); [|done].
  destruct (CreateCertificate env); [|done]. by intros [= <-].
Qed.

(** A name the library accepts does not start with a dot. *)
Lemma EffectiveTLDPlusOne_no_leading_dot domain base :
  eTLD1 domain = Done (Some base) -> HasPrefix domain "." = false.
Proof.
  unfold publicsuffix.EffectiveTLDPlusOne.
  destruct (HasPrefix domain "."); [done | done].
Qed.

(** Once a call has returned a leaf, a call that starts on the cache it
    left answers the same server name without minting. *)
Lemma getCertificate_settled env env' cache cache' sni c :
  mint env cache sni = Done (Some c, cache') ->
  mint env' cache' sni = Done (Some c, cache').
Proof.
  intros H. destruct (getCertificate_cases _ _ _ _ _ H)
    as [[? _] | [(c0 & [= <-] & -> & Hc)
       | (base & cn & c0 & [= <-] & Hne & Hmiss & He & Hcn & Hcase)]];
    [done| |].
  - unfold getCertificate. destruct (String.eqb sni "") eqn:Ee.
    + apply String.eqb_eq in Ee. subst. unfold getCertificate in H.
      simpl in H. done.
    + by rewrite Hc.
  - assert (Hin : cache' !! cn = Some c
                  /\ (sni <> cn -> cache' !! sni = None)).
    { destruct Hcase as [[-> Hc] | (-> & Hn & _)]; [done|].
      split; [apply lookup_insert_eq|].
      intros Hd. by rewrite lookup_insert_ne. }
    destruct Hin as [Hc Hs].
    destruct (decide (sni = cn)) as [-> | Hd].
    + unfold getCertificate. apply String.eqb_neq in Hne.
      by rewrite Hne, Hc.
    + by apply (getCertificate_hit PublicSuffix env' cache' sni base cn c);
        auto.
Qed.

(** X7.  A call that no other call overlaps (nothing else reads or
    writes the leaf cache between its first lookup and its store) never
    removes or replaces an entry of the leaf cache; if it fails it leaves
    the cache as it was; and a leaf that it returns is in the cache
    afterwards. *)
Theorem getCertificate_keeps (env : MintEnv)
    (cache cache' : gmap string tls.Certificate) (sni : string)
    (r : option tls.Certificate) :
  mint env cache sni = Done (r, cache') ->
  (forall k c, cache !! k = Some c -> cache' !! k = Some c)
  /\ (r = None -> cache' = cache)
  /\ (forall c, r = Some c -> exists k, cache' !! k = Some c).
Proof.
  intros H. destruct (getCertificate_cases _ _ _ _ _ H)
    as [[-> ->] | [(c & -> & -> & Hc)
       | (base & cn & c & -> & _ & _ & _ & _ & [[-> Hc] | (-> & Hn & _)])]].
  - split; [done|]. split; [done|]. done.
  - split; [done|]. split; [done|]. intros c' [= <-]. by exists sni.
  - split; [done|]. split; [done|]. intros c' [= <-]. by exists cn.
  - split.
    { intros k c0 Hk. rewrite lookup_insert_ne; [done|]. congruence. }
    split; [done|]. intros c' [= <-]. exists cn. apply lookup_insert_eq.
Qed.

(** X8.  Of two calls for the same server name that run one after the
    other, the second starting on the cache as the first left it and
    neither overlapped by another call, the second returns the leaf of
    the first, whatever its randomness and clock, and leaves the cache as
    it found it. *)
Theorem getCertificate_again (env env' : MintEnv)
    (cache cache' : gmap string tls.Certificate) (sni : string)
    (c : tls.Certificate) :
  mint env cache sni = Done (Some c, cache') ->
  mint env' cache' sni = Done (Some c, cache').
Proof. apply getCertificate_settled. Qed.

(** X9.  When every leaf of the cache is filed under its own name and
    its wildcard, the cache is so after the call too, and the leaf the
    call returns matches the server name: the server name is the leaf's
    name, or one non-empty label in front of it. *)
Theorem getCertificate_covers (env : MintEnv)
    (cache cache' : gmap string tls.Certificate) (sni : string)
    (c : tls.Certificate) :
  well_keyed cache ->
  mint env cache sni = Done (Some c, cache') ->
  well_keyed cache' /\ covers c sni.
Proof.
  intros Hwk H. destruct (getCertificate_cases _ _ _ _ _ H)
    as [[? _] | [(c0 & [= <-] & -> & Hc)
       | (base & cn & c0 & [= <-] & Hne & Hmiss & He & Hcn & Hcase)]];
    [done| |].
  - split; [done|]. exists sni. destruct (Hwk sni c Hc) as [_ Hd].
    split; [done | by left].
  - assert (Hnames : x509.DNSNames (tls.Leaf c) = ["*." +:+ cn; cn]
                     /\ well_keyed cache').
    { destruct Hcase as [[-> Hc] | (-> & Hn & Hm)].
      - split; [by destruct (Hwk cn c Hc) | done].
      - destruct (mintLeaf_names env cn c Hm) as [Hcn' Hd].
        split; [done|]. intros k c1.
        destruct (decide (k = cn)) as [-> | Hk].
        + rewrite lookup_insert_eq. by intros [= <-].
        + rewrite lookup_insert_ne by done. apply Hwk. }
    destruct Hnames as [Hd Hwk']. split; [done|].
    exists cn. split; [done|].
    destruct Hcn as [[-> ->] | (Hnb & a & -> & Ha)]; [by left|].
    right. exists a. split; [|done].
    intros ->. apply EffectiveTLDPlusOne_no_leading_dot in He.
    rewrite sapp_nil in He. by destruct cn.
Qed.

End MintMore.

Lemma getCertificate_keeps_witness :
  (forall k c, (∅ : gmap string tls.Certificate) !! k = Some c ->
     <["example.com" := fixtures.leaf]> (∅ : gmap string tls.Certificate) !! k
     = Some c)
  /\ (Some fixtures.leaf = None ->
      <["example.com" := fixtures.leaf]> ∅ = (∅ : gmap string tls.Certificate))
  /\ (forall c, Some fixtures.leaf = Some c ->
        exists k,
          <["example.com" := fixtures.leaf]> (∅ : gmap string tls.Certificate)
            !! k = Some c).
Proof.
  apply (getCertificate_keeps publicsuffix.sampleSuffix sample.mint ∅
           (<["example.com" := fixtures.leaf]> ∅) "www.example.com"
           (Some fixtures.leaf)).
  vm_compute. reflexivity.
Defined.

Lemma getCertificate_again_witness :
  getCertificate publicsuffix.sampleSuffix
    (mkMintEnv (Some 8) (Some 43) 5000 5000 true)
    (<["example.com" := fixtures.leaf]> ∅) "www.example.com"
  = Done (Some fixtures.leaf, <["example.com" := fixtures.leaf]> ∅).
Proof.
  apply (getCertificate_again publicsuffix.sampleSuffix sample.mint
           (mkMintEnv (Some 8) (Some 43) 5000 5000 true) ∅
           (<["example.com" := fixtures.leaf]> ∅) "www.example.com"
           fixtures.leaf).
  vm_compute. reflexivity.
Defined.

Lemma getCertificate_covers_witness :
  well_keyed (<["example.com" := fixtures.leaf]> ∅)
  /\ covers fixtures.leaf "www.example.com".
Proof.
  apply (getCertificate_covers publicsuffix.sampleSuffix sample.mint ∅
           (<["example.com" := fixtures.leaf]> ∅) "www.example.com"
           fixtures.leaf).
  - intros k c H. by rewrite lookup_empty in H.
  - vm_compute. reflexivity.
Defined.

(** ** More on the engine *)

Section EngineMore.

Variable PublicSuffix : string -> string.
Variable Fqdn : string -> string.
Variable IPString : dns.IP -> string.

Abbreviation serve := (forwardTls PublicSuffix Fqdn IPString).
Abbreviation section := (resolveAndDial Fqdn IPString).
Abbreviation resolve := (resolveRealIP Fqdn IPString).

Lemma dialEach_found dialOk n addrs a t :
  dialEach dialOk n addrs = (Some a, t) ->
  last t = Some (Dial (addr a)) /\ a ∈ addrs.
Proof.
  revert n t. induction addrs as [|b rest IH]; intros n t; simpl; [done|].
  destruct (dialOk n (addr b)).
  - intros [= <- <-]. split; [done | by left].
  - destruct (dialEach dialOk (S n) rest) as [r t'] eqn:E.
    intros [= -> <-]. destruct (IH _ _ E) as [Hl Hin].
    split; [|by right]. destruct t' as [|e t']; [done|]. exact Hl.
Qed.


(** The resolver asks first, and does nothing but ask and log. *)
Lemma resolveRealIP_trace exchange clock host :
  exists addrs t,
    resolve exchange clock host
    = Done (addrs, Exchange gfwDnsCli (query Fqdn host dns.TypeAAAA) gfwDNS
                   :: t)
    /\ forallb under_lock t = true
    /\ forallb (fun e => match e with Dial _ => false | _ => true end) t
       = true.
Proof.
  unfold resolveRealIP, query. destruct (exchange _ _ _); [|by eauto].
  cbn [dns.setQtype0 dns.Questions checked run_bind].
  destruct (exchange _ _ _); by eauto.
Qed.

Ltac last_event :=
  repeat (rewrite last_app || rewrite last_cons); simpl.


(** X10.  When the critical section ends with an outbound connection,
    the resolve cache holds under the host the address that was dialed
    last, which is the address of that connection; when it ends without
    one, the cache is as it was and the last thing done is a log line. *)
Theorem resolveAndDial_publishes (p : Peer) (cache cache' : gmap string Resolv)
    (host : string) (connected : bool) (t : list Event) :
  section p cache host = Done (connected, cache', t) ->
  if connected
  then exists r, cache' !! host = Some r /\ last t = Some (Dial (addr r))
  else cache' = cache /\ exists lvl text, last t = Some (Log lvl text).
Proof.
  unfold resolveAndDial.
  destruct (resolveRealIP_trace (exchange p) (resolveNow p) host)
    as (addrs & t' & Hr & _ & _).
  assert (Hmiss : forall n t0,
    (let* res := resolve (exchange p) (resolveNow p) host in
     let (addrs, t') := res in
     match addrs with
     | [] =>
         Done (false, cache,
               t0 ++ t' ++ [Log WarnLevel (host +:+ " resolve error")])
     | _ :: _ =>
         match dialEach (dialOk p) n addrs with
         | (Some a, t'') => Done (true, <[host := a]> cache, t0 ++ t' ++ t'')
         | (None, t'') =>
             Done (false, cache,
                   t0 ++ t' ++ t''
                   ++ [Log InfoLevel (host +:+ " is IP-blocked")])
         end
     end) = Done (connected, cache', t) ->
    if connected
    then exists r, cache' !! host = Some r /\ last t = Some (Dial (addr r))
    else cache' = cache /\ exists lvl text, last t = Some (Log lvl text)).
  { intros n t0. rewrite Hr. cbn [run_bind].
    destruct addrs as [|a addrs].
    - intros [= <- <- <-]. split; [done|]. do 2 eexists.
      by last_event.
    - destruct (dialEach (dialOk p) n (a :: addrs)) as [[found|] t''] eqn:Ed.
      + intros [= <- <- <-]. exists found. split; [apply lookup_insert_eq|].
        destruct (dialEach_found _ _ _ _ _ Ed) as [Hl _].
        last_event. by rewrite Hl.
      + intros [= <- <- <-]. split; [done|]. do 2 eexists.
        by last_event. }
  destruct (cache !! host) as [r|] eqn:Ec; [|apply Hmiss].
  destruct (negb (Expired r (expiredNow p))); [|apply Hmiss].
  destruct (dialOk p 0%nat (addr r)) eqn:Ed; [|apply Hmiss].
  intros [= <- <- <-]. by exists r.
Qed.

(** X11.  A cached address is dialed before anything else exactly when
    its expiry is not before the clock reading; with no entry, or with
    one whose expiry has passed, the first thing the critical section
    does is ask the resolver for the AAAA records of the host. *)
Theorem resolveAndDial_first (p : Peer) (cache : gmap string Resolv)
    (host : string) :
  exists connected cache' t,
    section p cache host = Done (connected, cache', t)
    /\ head t =
         Some (match cache !! host with
               | Some r =>
                   if expiredNow p <=? expire r then Dial (addr r)
                   else Exchange gfwDnsCli (query Fqdn host dns.TypeAAAA)
                          gfwDNS
               | None =>
                   Exchange gfwDnsCli (query Fqdn host dns.TypeAAAA) gfwDNS
               end).
Proof.
  unfold resolveAndDial.
  destruct (resolveRealIP_trace (exchange p) (resolveNow p) host)
    as (addrs & t' & Hr & _ & _).
  assert (Hmiss : forall n,
    exists connected cache' t,
      (let* res := resolve (exchange p) (resolveNow p) host in
       let (addrs, t') := res in
       match addrs with
       | [] =>
           Done (false, cache,
                 [] ++ t' ++ [Log WarnLevel (host +:+ " resolve error")])
       | _ :: _ =>
           match dialEach (dialOk p) n addrs with
           | (Some a, t'') => Done (true, <[host := a]> cache, [] ++ t' ++ t'')
           | (None, t'') =>
               Done (false, cache,
                     [] ++ t' ++ t''
                     ++ [Log InfoLevel (host +:+ " is IP-blocked")])
           end
       end) = Done (connected, cache', t)
      /\ head t
         = Some (Exchange gfwDnsCli (query Fqdn host dns.TypeAAAA) gfwDNS)).
  { intros n. rewrite Hr. cbn [run_bind].
    destruct addrs as [|a addrs]; [by eauto 6|].
    destruct (dialEach (dialOk p) n (a :: addrs)) as [[found|] t''];
      by eauto 6. }
  destruct (cache !! host) as [r|] eqn:Ec; [|apply Hmiss].
  unfold Expired. rewrite Z.ltb_antisym, negb_involutive.
  destruct (expiredNow p <=? expire r); [|apply Hmiss].
  destruct (dialOk p 0%nat (addr r)); [by eauto 6|].
  rewrite Hr. cbn [run_bind].
  destruct addrs as [|a addrs]; [by eauto 6|].
  destruct (dialEach (dialOk p) 1 (a :: addrs)) as [[found|] t''];
    by eauto 6.
Qed.






End EngineMore.


Lemma resolveAndDial_publishes_witness :
  exists r,
    (<["www.example.com" := fixtures.stored]> ∅ : gmap string Resolv)
      !! "www.example.com" = Some r
    /\ last (fixtures.asked ++ [Dial "[::1234]:443"])
       = Some (Dial (addr r)).
Proof.
  apply (resolveAndDial_publishes sample.Fqdn sample.IPString
           (sample.peer "www.example.com") ∅
           (<["www.example.com" := fixtures.stored]> ∅)
           "www.example.com" true
           (fixtures.asked ++ [Dial "[::1234]:443"])).
  vm_compute. reflexivity.
Defined.


(** ** More on the policy store *)

Section PolicyStoreMore.

Variable PublicSuffix : string -> string.
Variable TrimSpace : string -> string.

Abbreviation reload := (updateConfig TrimSpace).

(** X14.  The set a reload yields depends only on which lines the
    scanner yields from the file: two files from which it yields the same
    lines, in any order and with any repetition, yield the same set. *)
Theorem updateConfig_order_free (fs fs' : FileSystem) (fil fil' : File)
    (newMap : gset string) :
  Open fs = Some fil -> Open fs' = Some fil' -> CloseOk fil' = true ->
  (forall line, line ∈ ScanText fil <-> line ∈ ScanText fil') ->
  reload fs = Done newMap ->
  reload fs' = Done newMap.
Proof.
  intros Ho Ho' Hc Hsame Hr.
  destruct (updateConfig_entries TrimSpace fs newMap Hr) as (f & Hf & He).
  rewrite Ho in Hf. injection Hf as <-.
  unfold updateConfig. rewrite Ho', Hc. f_equal. symmetry.
  apply set_eq. intros e. rewrite He, scanInto_elem. split.
  - intros (line & Hl & H1 & H2). right. exists line.
    by rewrite <- Hsame.
  - intros [H | (line & Hl & H1 & H2)]; [by apply not_elem_of_empty in H|].
    exists line. by rewrite Hsame.
Qed.

Lemma pollOnce_tracks fs w w' :
  pollOnce TrimSpace fs w = Done w' ->
  Stat fs = Some (initStat w')
  /\ (active w' = active w \/ reload fs = Done (active w')).
Proof.
  unfold pollOnce. destruct (Stat fs) as [stat|]; [|done].
  destruct (negb (Size stat =? Size (initStat w))
            || negb (ModTime stat =? ModTime (initStat w))) eqn:E.
  - destruct (reload fs) as [newMap| | |]; try done. cbn [run_bind].
    intros [= <-]. split; [done | by right].
  - intros [= <-]. apply orb_false_iff in E as [E1 E2].
    apply negb_false_iff, Z.eqb_eq in E1, E2.
    split; [|by left]. f_equal.
    destruct stat, (initStat w). simpl in *. by subst.
Qed.

(** X15.  After any number of turns of the watcher that all returned,
    the stat it remembers is the one of the latest turn, and the active
    set is the one it started with or one that a reload produced from one
    of the file states it has seen. *)
Theorem pollLoop_tracks (ticks : list FileSystem) (w w' : Watch) :
  pollLoop TrimSpace ticks w = Done w' ->
  match last ticks with
  | Some fs => Stat fs = Some (initStat w')
  | None => w' = w
  end
  /\ (active w' = active w
      \/ exists fs, fs ∈ ticks /\ reload fs = Done (active w')).
Proof.
  revert w. induction ticks as [|fs rest IH]; intros w; cbn [pollLoop].
  { intros [= <-]. split; [done | by left]. }
  destruct (pollOnce TrimSpace fs w) as [w1| | |] eqn:E1; try done.
  cbn [run_bind]. intros H. destruct (IH _ H) as [Hl Ha].
  destruct (pollOnce_tracks _ _ _ E1) as [Hs Ha1].
  split.
  - rewrite last_cons. destruct (last rest) as [fs'|]; [done|].
    by rewrite Hl.
  - destruct Ha as [Ha | (fs' & Hin & Hr)].
    + rewrite Ha. destruct Ha1 as [Ha1 | Ha1]; [by left|].
      right. exists fs. split; [by left | done].
    + right. exists fs'. split; [by right | done].
Qed.

(** X16.  A name on a line that the scanner yields from the
    configuration file is answered by the DNS handler once the file is
    loaded: for a yielded line whose trimmed text is [d], not empty, a
    request with the one question [A d.] is answered at once with the
    authoritative reply that points [d.] to [127.0.0.1] for sixty seconds,
    and no upstream is asked. *)
Theorem listed_name_is_answered (exchange : dns.Exchanger) (fs : FileSystem)
    (fil : File) (line : string) (w : Watch) (m : dns.Msg) (q : dns.Question) :
  pollingFileChange TrimSpace fs = Done w ->
  Open fs = Some fil -> line ∈ ScanText fil -> TrimSpace line <> "" ->
  dns.Questions m = [q] ->
  dns.Qtype q = dns.TypeA ->
  dns.Name q = TrimSpace line +:+ "." ->
  forwardDns PublicSuffix (active w) exchange m
  = Done (WriteMsg
            (dns.setAnswer
               (dns.setAuthoritative (dns.SetReply dns.newMsg m) true)
               [dns.A (dns.mkHeader (TrimSpace line +:+ ".") dns.TypeA
                         dns.ClassINET 60)
                  (net.IPv4 127 0 0 1)])
            []).
Proof.
  intros Hp Ho Hl Hne Hq Ht Hn. unfold pollingFileChange in Hp.
  destruct (Stat fs); [|done].
  destruct (reload fs) as [newMap| | |] eqn:Hr; try done.
  cbn [run_bind] in Hp. injection Hp as <-. cbn [active].
  destruct (updateConfig_entries TrimSpace fs newMap Hr) as (f' & Hf & He).
  rewrite Ho in Hf. injection Hf as <-.
  assert (Hin : TrimSpace line ∈ newMap) by (apply He; by exists line).
  unfold forwardDns. rewrite Hq. cbn [length lookup list_lookup].
  cbn [run_bind checked]. rewrite Ht, Hn. cbn [Z.eqb orb].
  rewrite slice_to_trailing. cbn [run_bind checked].
  unfold needsProxy. rewrite bool_decide_eq_true_2 by done.
  cbn [run_bind]. done.
Qed.

End PolicyStoreMore.

Lemma updateConfig_order_free_witness :
  updateConfig sample.TrimSpace
    (mkFileSystem (Some (mkFileInfo 30 1))
       (Some (mkFile ["b.org"; "a.com"; "b.org"; " a.com "] true)))
  = Done ({["b.org"]} ∪ ({["a.com"]} ∪ ∅)).
Proof.
  apply (updateConfig_order_free sample.TrimSpace
           (mkFileSystem (Some (mkFileInfo 12 0))
              (Some (mkFile ["a.com"; " a.com "; "b.org"] true)))
           (mkFileSystem (Some (mkFileInfo 30 1))
              (Some (mkFile ["b.org"; "a.com"; "b.org"; " a.com "] true)))
           (mkFile ["a.com"; " a.com "; "b.org"] true)
           (mkFile ["b.org"; "a.com"; "b.org"; " a.com "] true)).
  - reflexivity.
  - reflexivity.
  - reflexivity.
  - intros line. cbn [ScanText]. rewrite !elem_of_cons.
    rewrite !elem_of_nil. tauto.
  - vm_compute. reflexivity.
Defined.

Lemma pollLoop_tracks_witness :
  Stat (mkFileSystem (Some (mkFileInfo 13 1)) (Some (mkFile ["b.org"] true)))
  = Some (initStat (mkWatch ({["b.org"]} ∪ ∅) (mkFileInfo 13 1)))
  /\ (active (mkWatch ({["b.org"]} ∪ ∅) (mkFileInfo 13 1))
      = active (mkWatch {["a.com"]} (mkFileInfo 12 0))
      \/ exists fs,
           fs ∈ [mkFileSystem (Some (mkFileInfo 12 0)) None;
                 mkFileSystem (Some (mkFileInfo 13 1))
                   (Some (mkFile ["b.org"] true))]
           /\ updateConfig sample.TrimSpace fs
              = Done (active (mkWatch ({["b.org"]} ∪ ∅) (mkFileInfo 13 1)))).
Proof.
  apply (pollLoop_tracks sample.TrimSpace
           [mkFileSystem (Some (mkFileInfo 12 0)) None;
            mkFileSystem (Some (mkFileInfo 13 1))
              (Some (mkFile ["b.org"] true))]
           (mkWatch {["a.com"]} (mkFileInfo 12 0))
           (mkWatch ({["b.org"]} ∪ ∅) (mkFileInfo 13 1))).
  vm_compute. reflexivity.
Defined.

Lemma listed_name_is_answered_witness :
  forwardDns publicsuffix.sampleSuffix
    (active (mkWatch ({["example.com"]} ∪ ∅) (mkFileInfo 12 0)))
    sample.exchangeV6Only
    (dns.mkMsg dns.zeroHdr
       [dns.mkQuestion "example.com." dns.TypeA dns.ClassINET] [] [] [])
  = Done (WriteMsg
            (dns.setAnswer
               (dns.setAuthoritative
                  (dns.SetReply dns.newMsg
                     (dns.mkMsg dns.zeroHdr
                        [dns.mkQuestion "example.com." dns.TypeA
                           dns.ClassINET] [] [] []))
                  true)
               [dns.A (dns.mkHeader "example.com." dns.TypeA dns.ClassINET 60)
                  (net.IPv4 127 0 0 1)])
            []).
Proof.
  apply (listed_name_is_answered publicsuffix.sampleSuffix sample.TrimSpace
           sample.exchangeV6Only
           (mkFileSystem (Some (mkFileInfo 12 0))
              (Some (mkFile [" example.com "] true)))
           (mkFile [" example.com "] true) " example.com "
           (mkWatch ({["example.com"]} ∪ ∅) (mkFileInfo 12 0))
           (dns.mkMsg dns.zeroHdr
              [dns.mkQuestion "example.com." dns.TypeA dns.ClassINET]
              [] [] [])
           (dns.mkQuestion "example.com." dns.TypeA dns.ClassINET)).
  - vm_compute. reflexivity.
  - reflexivity.
  - apply elem_of_cons. by left.
  - vm_compute. discriminate.
  - reflexivity.
  - reflexivity.
  - reflexivity.
Defined.

(** ** More on connections running concurrently *)

Section Concurrency.

Variable PublicSuffix : string -> string.
Variable Fqdn : string -> string.
Variable IPString : dns.IP -> string.

Abbreviation step' := (step PublicSuffix Fqdn IPString).
Abbreviation perform' := (perform PublicSuffix Fqdn IPString).
Abbreviation exec' := (exec PublicSuffix Fqdn IPString).

Ltac step_all H :=
  unfold step, goto, afterHandshake in H;
  repeat match type of H with
         | context [match ?x with _ => _ end] => destruct x eqn:?
         end;
  simplify_eq/=.

(** What a step does to the goroutine that takes it and to the mutexes:
    it stays on its side of the critical section, or enters it taking the
    free mutex of its host, or leaves it releasing that mutex. *)
Lemma step_moves s i o s' :
  step' s i o = Some s' ->
  exists c pc',
    conns s !! i = Some c
    /\ conns s' = <[i := mkConn (connHost c) pc']> (conns s)
    /\ ((inSection pc' = inSection (connPc c) /\ held s' = held s)
        \/ (inSection (connPc c) = false /\ inSection pc' = true
            /\ held s' = {[connHost c]} ∪ held s)
        \/ (inSection (connPc c) = true /\ inSection pc' = false
            /\ held s' = held s ∖ {[connHost c]})).
Proof.
  intros H. step_all H;
    (eexists c, _; split; [reflexivity|]; split; [reflexivity|]);
    match goal with Hpc : connPc _ = _ |- _ => rewrite Hpc end; simpl;
    try (left; split; reflexivity).
  - right. left. done.
  - right. right. done.
  - right. right. done.
Qed.

Lemma owned_step s a s' :
  exclusive s -> owned s -> perform' s a = Some s' -> owned s'.
Proof.
  intros [_ Hu] Ho Hp. destruct a as [sni | i o]; simpl in Hp.
  - injection Hp as <-. intros h Hh. simpl in *.
    destruct (Ho h Hh) as (j & cj & Hj & Hhost & Hs).
    exists j, cj. split; [|done]. by apply lookup_app_l_Some.
  - destruct (step_moves s i o s' Hp) as (c & pc' & Hc & Hcs & Hcase).
    pose proof (lookup_lt_Some _ _ _ Hc) as Hlt.
    intros h Hh. rewrite Hcs.
    assert (Hkeep : forall j cj, j <> i -> conns s !! j = Some cj ->
              connHost cj = h -> inSection (connPc cj) = true ->
              exists j c0,
                <[i := mkConn (connHost c) pc']> (conns s) !! j = Some c0
                /\ connHost c0 = h /\ inSection (connPc c0) = true).
    { intros j cj Hne Hj Hhost Hs. exists j, cj.
      by rewrite list_lookup_insert_ne. }
    assert (Hme : connHost c = h -> inSection pc' = true ->
              exists j c0,
                <[i := mkConn (connHost c) pc']> (conns s) !! j = Some c0
                /\ connHost c0 = h /\ inSection (connPc c0) = true).
    { intros Hhost Hs. exists i, (mkConn (connHost c) pc').
      by rewrite list_lookup_insert_eq. }
    destruct Hcase as [[E Hheld] | [(E1 & E2 & Hheld) | (E1 & E2 & Hheld)]];
      rewrite Hheld in Hh.
    + destruct (Ho h Hh) as (j & cj & Hj & Hhost & Hs).
      destruct (decide (j = i)) as [-> | Hne]; [|by eauto].
      rewrite Hc in Hj. injection Hj as <-. apply Hme; [done|].
      by rewrite E.
    + apply elem_of_union in Hh as [Hh%elem_of_singleton | Hh];
        [by apply Hme|].
      destruct (Ho h Hh) as (j & cj & Hj & Hhost & Hs).
      destruct (decide (j = i)) as [-> | Hne]; [|by eauto].
      rewrite Hc in Hj. injection Hj as <-. congruence.
    + apply elem_of_difference in Hh as [Hh Hn].
      destruct (Ho h Hh) as (j & cj & Hj & Hhost & Hs).
      destruct (decide (j = i)) as [-> | Hne]; [|by eauto].
      rewrite Hc in Hj. injection Hj as <-. exfalso. apply Hn.
      by apply elem_of_singleton.
Qed.

(** A goroutine that has not returned and is not waiting for a locked
    mutex can take its step, whatever the peer and the network do: no
    step of a connection panics. *)
Lemma step_enabled s i o : ready s i -> is_Some (step' s i o).
Proof.
  intros (c & Hc & Hpc & Hlock). unfold step. rewrite Hc.
  destruct (connPc c) eqn:E; try done.
  - destruct (String.eqb (connHost c) ""); [done|].
    destruct (cacheCert (shared s) !! connHost c); [done|].
    destruct (EffectiveTLDPlusOne_returns PublicSuffix (connHost c))
      as (r & Hr & _).
    destruct r as [base|]; rewrite Hr; [|done].
    destruct (cert_name_exists PublicSuffix _ _ Hr) as (cn & Hcn & _).
    by rewrite (cert_name_computed _ _ _ Hcn).
  - destruct (cacheCert (shared s) !! cn); [done|].
    by destruct (mintLeaf (mintEnv o) cn).
  - destruct (needsProxy_answer PublicSuffix (proxyAddr (shared s))
                (connHost c)) as (b & Hb & _).
    rewrite Hb. by destruct b.
  - rewrite bool_decide_eq_false_2; [done|]. by apply Hlock.
  - destruct (cacheResolv (shared s) !! connHost c) as [r|]; [|done].
    by destruct (negb (Expired r (expiredNow o)) && dialOk o 0%nat (addr r)).
  - destruct (resolveRealIP_returns Fqdn IPString (exchange o)
                (resolveNow o) (connHost c)) as (addrs & t & Hr).
    by rewrite Hr.
  - destruct addrs as [|a rest]; [done|].
    by destruct (dialOk o 0%nat (addr a)).
Qed.

(** X17.  After every interleaving of any number of connections, started
    with cold caches: every locked mutex has a goroutine of its host
    between [Lock] and [Unlock], so no mutex stays locked behind a
    goroutine that has left; a goroutine that has not returned and is
    not waiting for a locked mutex can take its step whatever the peer
    and the network do; and as long as some goroutine has not returned,
    one of them can take a step. *)
Theorem no_deadlock (policy : gset string) (acts : list Action) (s : System) :
  exec' acts (cold policy) = Some s ->
  owned s
  /\ (forall i o, ready s i -> is_Some (step' s i o))
  /\ ((exists i c, conns s !! i = Some c /\ connPc c <> Closed) ->
      exists j, ready s j).
Proof.
  intros Hrun.
  assert (Hinv : exclusive s /\ owned s).
  { apply (exec_keeps PublicSuffix Fqdn IPString
             (fun s => exclusive s /\ owned s))
      with (acts := acts) (s := cold policy); [| |exact Hrun].
    - intros s0 a s1 [Hex Ho] Hp. split.
      + by apply (exclusive_step PublicSuffix Fqdn IPString s0 a).
      + by apply (owned_step s0 a).
    - split; [apply exclusive_cold|]. intros h Hh. simpl in Hh.
      by apply not_elem_of_empty in Hh. }
  destruct Hinv as [_ Ho]. split; [done|].
  split; [intros i o; apply step_enabled|].
  intros (i & c & Hc & Hpc).
  destruct (decide (connHost c ∈ held s)) as [Hh | Hfree].
  - destruct (Ho _ Hh) as (j & cj & Hj & _ & Hs).
    exists j, cj. split; [done|].
    split; [by destruct (connPc cj) | intros E; by rewrite E in Hs].
  - exists i, c. done.
Qed.

(** What a step does to the resolve cache: entries stay, and the
    goroutine gets an outbound connection only with an entry for its host
    in the cache. *)
Lemma step_publishes s i o s' :
  step' s i o = Some s' ->
  exists c pc',
    conns s !! i = Some c
    /\ conns s' = <[i := mkConn (connHost c) pc']> (conns s)
    /\ (forall k, is_Some (cacheResolv (shared s) !! k) ->
                  is_Some (cacheResolv (shared s') !! k))
    /\ (connected pc' = true ->
        connected (connPc c) = true
        \/ is_Some (cacheResolv (shared s') !! connHost c)).
Proof.
  intros H. step_all H;
    (eexists c, _; split; [reflexivity|]; split; [reflexivity|]);
    match goal with Hpc : connPc _ = _ |- _ => rewrite Hpc end; simpl;
    (split; [try done|]); try done; try (by right); try (by left).
  - intros k Hk. destruct (decide (k = connHost c)) as [-> | Hne].
    + by rewrite lookup_insert_eq.
    + by rewrite lookup_insert_ne.
  - intros _. right. by rewrite lookup_insert_eq.
Qed.

(** X18.  After every interleaving of any number of connections, started
    with cold caches, a goroutine that has an outbound connection finds
    an address for its host in the resolve cache: the address is stored
    before the lock is released, and no entry is ever removed. *)
Theorem address_published (policy : gset string) (acts : list Action)
    (s : System) (i : nat) (c : Conn) :
  exec' acts (cold policy) = Some s ->
  conns s !! i = Some c ->
  connected (connPc c) = true ->
  is_Some (cacheResolv (shared s) !! connHost c).
Proof.
  intros Hrun. revert i c.
  apply (exec_keeps PublicSuffix Fqdn IPString
           (fun s => forall i c, conns s !! i = Some c ->
                       connected (connPc c) = true ->
                       is_Some (cacheResolv (shared s) !! connHost c)))
    with (acts := acts) (s := cold policy); [| |exact Hrun].
  - intros s0 a s1 Hinv Hp. destruct a as [sni | j o]; simpl in Hp.
    + injection Hp as <-. simpl. intros i c Hi Hc.
      apply lookup_app_Some in Hi as [Hi | [_ Hi]]; [by eauto|].
      apply list_lookup_singleton_Some in Hi as [_ <-]. done.
    + destruct (step_publishes s0 j o s1 Hp)
        as (c0 & pc' & Hc0 & Hcs & Hkeep & Hnew).
      intros i c. rewrite Hcs.
      intros [(-> & <- & _) | [Hne Hi]]%list_lookup_insert_Some; simpl.
      * intros Hc. destruct (Hnew Hc) as [Hold | Hin]; [|done].
        apply Hkeep. by apply (Hinv i c0).
      * intros Hc. apply Hkeep. by apply (Hinv i c).
  - simpl. intros i c Hi. by rewrite lookup_nil in Hi.
Qed.

(** What a step does beyond the policy check is done for the host of the
    goroutine, after the matcher has accepted it. *)
Lemma step_policy s i o s' :
  step' s i o = Some s' ->
  exists c pc',
    conns s !! i = Some c
    /\ conns s' = <[i := mkConn (connHost c) pc']> (conns s)
    /\ proxyAddr (shared s') = proxyAddr (shared s)
    /\ (pastPolicy pc' = true ->
        pastPolicy (connPc c) = true
        \/ needsProxy PublicSuffix (proxyAddr (shared s)) (connHost c)
           = Done true)
    /\ (forall h, touched s' h ->
          touched s h
          \/ (h = connHost c
              /\ (pastPolicy (connPc c) = true
                  \/ needsProxy PublicSuffix (proxyAddr (shared s))
                       (connHost c) = Done true))).
Proof.
  intros H. unfold touched. step_all H;
    (eexists c, _; split; [reflexivity|]; split; [reflexivity|]);
    match goal with Hpc : connPc _ = _ |- _ => rewrite Hpc end; simpl;
    (split; [done|]); (split; [try done; try (by left); try (by right)|]);
    try (intros h Hh; by left).
  all: intros h Hh; destruct (decide (h = connHost c)) as [-> | Hne];
    [right; split; [done|]; auto|].
  all: left; rewrite ?lookup_insert_ne in Hh by done;
    rewrite ?elem_of_union, ?elem_of_cons, ?elem_of_difference,
      ?elem_of_singleton in Hh; tauto.
Qed.

(** X19.  After every interleaving of any number of connections, started
    with cold caches, the policy set is the one the run started with, and
    every host that has been resolved, that has an address in the resolve
    cache or that has a mutex is a host the matcher accepts: nothing is
    resolved, dialed or locked for any other server name. *)
Theorem only_policy_hosts (policy : gset string) (acts : list Action)
    (s : System) :
  exec' acts (cold policy) = Some s ->
  proxyAddr (shared s) = policy
  /\ forall h, touched s h -> needsProxy PublicSuffix policy h = Done true.
Proof.
  intros Hrun.
  pose (ok := fun h => needsProxy PublicSuffix policy h = Done true).
  assert (Hinv : proxyAddr (shared s) = policy
                 /\ (forall i c, conns s !! i = Some c ->
                       pastPolicy (connPc c) = true -> ok (connHost c))
                 /\ (forall h, touched s h -> ok h)).
  { apply (exec_keeps PublicSuffix Fqdn IPString
             (fun s => proxyAddr (shared s) = policy
                       /\ (forall i c, conns s !! i = Some c ->
                             pastPolicy (connPc c) = true -> ok (connHost c))
                       /\ (forall h, touched s h -> ok h)))
      with (acts := acts) (s := cold policy); [| |exact Hrun].
    - intros s0 a s1 (Hp0 & Hc0 & Ht0) Hp.
      destruct a as [sni | j o]; simpl in Hp.
      + injection Hp as <-. simpl. split; [done|]. split; [|done].
        intros i c Hi Hc.
        apply lookup_app_Some in Hi as [Hi | [_ Hi]]; [by eauto|].
        apply list_lookup_singleton_Some in Hi as [_ <-]. done.
      + destruct (step_policy s0 j o s1 Hp)
          as (c0 & pc' & Hl & Hcs & Hpa & Hnew & Ht).
        rewrite Hp0 in Hnew, Ht.
        assert (Hme : pastPolicy (connPc c0) = true
                      \/ needsProxy PublicSuffix policy (connHost c0)
                         = Done true -> ok (connHost c0)).
        { intros [H | H]; [by apply (Hc0 j c0) | done]. }
        split; [congruence|]. split.
        * intros i c. rewrite Hcs.
          intros [(-> & <- & _) | [Hne Hi]]%list_lookup_insert_Some; simpl.
          -- intros Hc. by apply Hme, Hnew.
          -- by apply (Hc0 i c).
        * intros h Hh. destruct (Ht h Hh) as [Hold | [-> Hnow]];
            [by apply Ht0 | by apply Hme].
    - split; [done|]. split.
      + simpl. intros i c Hi. by rewrite lookup_nil in Hi.
      + unfold touched. simpl. intros h [H | [H | [H | H]]].
        * by apply not_elem_of_nil in H.
        * rewrite lookup_empty in H. by destruct H.
        * by apply not_elem_of_empty in H.
        * by apply not_elem_of_empty in H. }
  destruct Hinv as (H1 & _ & H3). done.
Qed.


(** What a step does to the leaf cache: the one write is the store of
    the leaf the goroutine has made, under the name it made it for. *)
Lemma step_leaves s i o s' :
  step' s i o = Some s' ->
  exists c pc',
    conns s !! i = Some c
    /\ conns s' = <[i := mkConn (connHost c) pc']> (conns s)
    /\ (cacheCert (shared s') = cacheCert (shared s)
        \/ exists cn cert,
             connPc c = AtStore cn cert
             /\ cacheCert (shared s') = <[cn := cert]> (cacheCert (shared s)))
    /\ (forall k, k ∈ minted s -> k ∈ minted s')
    /\ (forall cn cert, pc' = AtStore cn cert ->
          cn ∈ minted s' /\ mintLeaf (mintEnv o) cn = Some cert).
Proof.
  intros H. step_all H;
    (eexists c, _; split; [reflexivity|]; split; [reflexivity|]);
    match goal with Hpc : connPc _ = _ |- _ => rewrite Hpc end; simpl;
    (split; [try (by left); right; by eauto|]);
    (split; [try done; intros k Hk; by right|]);
    try done.
  intros cn' cert' [= <- <-]. split; [by left | done].
Qed.

(** X20.  After every interleaving of any number of connections, started
    with cold caches, every leaf in the certificate cache is filed under
    its own common name, carries that name and its wildcard as its DNS
    names, and was made in this run: goroutines that race on one name
    may replace each other's leaf, but never file a leaf under another
    name. *)
Theorem leaves_filed (policy : gset string) (acts : list Action)
    (s : System) :
  exec' acts (cold policy) = Some s ->
  well_keyed (cacheCert (shared s))
  /\ forall k, is_Some (cacheCert (shared s) !! k) -> k ∈ minted s.
Proof.
  intros Hrun.
  pose (named := fun (cn : string) (cert : tls.Certificate) =>
          x509.CommonName (tls.Leaf cert) = cn
          /\ x509.DNSNames (tls.Leaf cert) = ["*." +:+ cn; cn]).
  assert (Hinv : (forall k cert, cacheCert (shared s) !! k = Some cert ->
                    named k cert /\ k ∈ minted s)
                 /\ (forall i c cn cert, conns s !! i = Some c ->
                       connPc c = AtStore cn cert ->
                       named cn cert /\ cn ∈ minted s)).
  { apply (exec_keeps PublicSuffix Fqdn IPString
             (fun s =>
                (forall k cert, cacheCert (shared s) !! k = Some cert ->
                   named k cert /\ k ∈ minted s)
                /\ (forall i c cn cert, conns s !! i = Some c ->
                      connPc c = AtStore cn cert ->
                      named cn cert /\ cn ∈ minted s)))
      with (acts := acts) (s := cold policy); [| |exact Hrun].
    - intros s0 a s1 [Hc0 Hg0] Hp.
      destruct a as [sni | j o]; simpl in Hp.
      + injection Hp as <-. simpl. split; [done|].
        intros i c cn cert Hi Hc.
        apply lookup_app_Some in Hi as [Hi | [_ Hi]]; [by eauto|].
        apply list_lookup_singleton_Some in Hi as [_ <-]. done.
      + destruct (step_leaves s0 j o s1 Hp)
          as (c0 & pc' & Hl & Hcs & Hcache & Hm & Hnew).
        split.
        * intros k cert.
          destruct Hcache as [-> | (cn & cert0 & Hpc & ->)].
          -- intros Hk. destruct (Hc0 k cert Hk). by auto.
          -- destruct (Hg0 j c0 cn cert0 Hl Hpc) as [Hn Hin].
             destruct (decide (k = cn)) as [-> | Hne].
             ++ rewrite lookup_insert_eq. intros [= <-]. by auto.
             ++ rewrite lookup_insert_ne by done. intros Hk.
                destruct (Hc0 k cert Hk). by auto.
        * intros i c cn cert. rewrite Hcs.
          intros [(-> & <- & _) | [Hne Hi]]%list_lookup_insert_Some; simpl.
          -- intros Hpc. destruct (Hnew cn cert Hpc) as [Hin Hmint].
             split; [|done]. by apply (mintLeaf_names (mintEnv o)).
          -- intros Hpc. destruct (Hg0 i c cn cert Hi Hpc). by auto.
    - split.
      + simpl. intros k cert Hk. by rewrite lookup_empty in Hk.
      + simpl. intros i c cn cert Hi. by rewrite lookup_nil in Hi. }
  destruct Hinv as [Hc _]. split.
  - intros k cert Hk. by destruct (Hc k cert Hk).
  - intros k [cert Hk]. by destruct (Hc k cert Hk).
Qed.

End Concurrency.

Lemma no_deadlock_witness :
  owned fixtures.after_race
  /\ (forall i o, ready fixtures.after_race i ->
        is_Some (step publicsuffix.sampleSuffix sample.Fqdn sample.IPString
                   fixtures.after_race i o))
  /\ ((exists i c, conns fixtures.after_race !! i = Some c
                   /\ connPc c <> Closed) ->
      exists j, ready fixtures.after_race j).
Proof.
  apply (no_deadlock publicsuffix.sampleSuffix sample.Fqdn sample.IPString
           {["example.com"]} sample.race fixtures.after_race).
  vm_compute. reflexivity.
Defined.

Lemma address_published_witness :
  is_Some (cacheResolv (shared fixtures.after_race) !! "www.example.com").
Proof.
  apply (address_published publicsuffix.sampleSuffix sample.Fqdn
           sample.IPString {["example.com"]} sample.race fixtures.after_race
           0%nat (mkConn "www.example.com" AtSplice)).
  - vm_compute. reflexivity.
  - reflexivity.
  - reflexivity.
Defined.

Lemma only_policy_hosts_witness :
  proxyAddr (shared fixtures.after_race) = {["example.com"]}
  /\ forall h, touched fixtures.after_race h ->
       needsProxy publicsuffix.sampleSuffix {["example.com"]} h = Done true.
Proof.
  apply (only_policy_hosts publicsuffix.sampleSuffix sample.Fqdn
           sample.IPString {["example.com"]} sample.race fixtures.after_race).
  vm_compute. reflexivity.
Defined.

Lemma leaves_filed_witness :
  well_keyed (cacheCert (shared fixtures.after_race))
  /\ forall k, is_Some (cacheCert (shared fixtures.after_race) !! k) ->
       k ∈ minted fixtures.after_race.
Proof.
  apply (leaves_filed publicsuffix.sampleSuffix sample.Fqdn sample.IPString
           {["example.com"]} sample.race fixtures.after_race).
  vm_compute. reflexivity.
Defined.

(** ** init *)

(** X21.  How the start of the process ends.  It returns exactly when
    both files are read, each holds a PEM block and both blocks parse,
    and then with the certificate and the key parsed from them.  It
    panics, rather than exiting with a logged error, exactly when a file
    that was read holds no PEM block: the certificate file, or the key
    file after a certificate that parsed.  In every other case it exits
    with a logged error. *)
Theorem init_outcome (o : Startup) :
  (forall caParent caPriKey,
     init o = Done (caParent, caPriKey) <->
     exists certPEM certDER keyPEM keyDER,
       ReadFile o caCert = Some certPEM
       /\ pemDecode o certPEM = Some certDER
       /\ ParseCertificate o certDER = Some caParent
       /\ ReadFile o caKey = Some keyPEM
       /\ pemDecode o keyPEM = Some keyDER
       /\ ParsePKCS1PrivateKey o keyDER = Some caPriKey)
  /\ (init o = Panic <->
      (exists certPEM,
         ReadFile o caCert = Some certPEM /\ pemDecode o certPEM = None)
      \/ (exists certPEM certDER caParent keyPEM,
            ReadFile o caCert = Some certPEM
            /\ pemDecode o certPEM = Some certDER
            /\ ParseCertificate o certDER = Some caParent
            /\ ReadFile o caKey = Some keyPEM
            /\ pemDecode o keyPEM = None))
  /\ (init o = Fatal \/ init o = Panic \/ exists r, init o = Done r).
Proof.
  unfold init.
  destruct (ReadFile o caCert) as [certPEM|] eqn:E1.
  2:{ split; [|split]; [| |by left].
      - intros c k. split; [done|]. by intros (? & ? & ? & ? & ? & _).
      - split; [done|].
        intros [(? & ? & _) | (? & ? & ? & ? & ? & _)]; done. }
  destruct (pemDecode o certPEM) as [certDER|] eqn:E2; cbn [checked run_bind].
  2:{ split; [|split]; [| |by right; left].
      - intros c k. split; [done|].
        intros (? & ? & ? & ? & [= <-] & ? & _). congruence.
      - split; [|done]. intros _. left. by exists certPEM. }
  destruct (ParseCertificate o certDER) as [caParent|] eqn:E3.
  2:{ split; [|split]; [| |by left].
      - intros c k. split; [done|].
        intros (? & ? & ? & ? & [= <-] & ? & ? & _). congruence.
      - split; [done|].
        intros [(? & [= <-] & ?) | (? & ? & ? & ? & [= <-] & ? & ? & _)];
          congruence. }
  destruct (ReadFile o caKey) as [keyPEM|] eqn:E4.
  2:{ split; [|split]; [| |by left].
      - intros c k. split; [done|].
        intros (? & ? & ? & ? & _ & _ & _ & ? & _). congruence.
      - split; [done|].
        intros [(? & [= <-] & ?) | (? & ? & ? & ? & _ & _ & _ & ? & _)];
          congruence. }
  destruct (pemDecode o keyPEM) as [keyDER|] eqn:E5; cbn [checked run_bind].
  2:{ split; [|split]; [| |by right; left].
      - intros c k. split; [done|].
        intros (? & ? & ? & ? & _ & _ & _ & ? & ? & _). congruence.
      - split; [|done]. intros _. right.
        by exists certPEM, certDER, caParent, keyPEM. }
  destruct (ParsePKCS1PrivateKey o keyDER) as [caPriKey|] eqn:E6.
  2:{ split; [|split]; [| |by left].
      - intros c k. split; [done|].
        intros (? & ? & ? & ? & [= <-] & ? & ? & ? & ? & ?). congruence.
      - split; [done|].
        intros [(? & [= <-] & ?) | (? & ? & ? & ? & _ & _ & _ & ? & ?)];
          congruence. }
  split; [|split]; [| |by right; right; eauto].
  - intros c k. split.
    + intros [= <- <-]. by exists certPEM, certDER, keyPEM, keyDER.
    + intros (? & ? & ? & ? & [= <-] & ? & ? & ? & ? & ?). congruence.
  - split; [done|].
    intros [(? & [= <-] & ?) | (? & ? & ? & ? & _ & _ & _ & ? & ?)];
      congruence.
Qed.
